(** * hc: the holochain peer command line, and the chain lifecycle it drives

    Shallow embedding of [cmd/hc/hc.go].  The command actions are
    written against an abstract interface [HoloLib] standing for the
    [holo] package (service, holochain handle, DHT); the properties that
    depend only on the command code are proved for every implementation
    of that interface.  Module [SpecLib] gives the lifecycle state
    machine, genesis and chain walker of the library, which are not part
    of [src/], modelled from the specification. *)

From Stdlib Require Import String Ascii ZArith List Lia.
From stdpp Require Import base gmap strings list pretty.

Open Scope Z_scope.

(* ------------------------------------------------------------------ *)
(** ** Data model shared by the command code and the library *)

(** A content identifier ([holo.Hash]); byte equality becomes Z equality. *)
Abbreviation Hash := Z.

(** [holo.Header]. *)
Record Header := mkHeader {
  Type_ : string;
  Time : Z;
  HeaderLink : option Hash;   (** nil for the genesis header *)
  TypeLink : option Hash;
  EntryLink : Hash
}.

(** [holo.KeyEntry]. *)
Record KeyEntry := mkKeyEntry { KeyID : string; KeyPub : Z }.

(** The dynamic value behind the [interface{}] entry handed to a walker
    callback: a DNA entry is a [[]byte], a key entry a [KeyEntry], any
    other application entry an opaque value (a string here). *)
Inductive EntryVal :=
| VBytes (b : list Byte.byte)
| VKey (k : KeyEntry)
| VOther (s : string).

(** Go [error] values: the dynamic kind of the value, and its
    [Error()] text.  [KString] is the kind of [errors.New] and
    [fmt.Errorf] results. *)
Inductive ErrKind :=
| KString
| KMalformedDNA
| KAlreadyInitialized
| KNotSeeded
| KDuplicateName
| KNotFound
| KCorruptChain
| KUninitialized
| KPanic.   (** not a returned value: a Go runtime panic, see [go_panic] *)

Record GoError := mkErr { err_kind : ErrKind; err_text : string }.

Definition Error (e : GoError) : string := err_text e.

(** [errors.New] / [fmt.Errorf]. *)
Definition errors_New (s : string) : GoError := mkErr KString s.

(** A Go runtime panic (a failed type assertion, an index out of
    range). Nothing in [hc] recovers it: it unwinds through the command's
    [Action] and [main], and the process dies. A run ends with it in
    place of a returned error; [main] never sees it as a value. *)
Definition go_panic : GoError := mkErr KPanic "panic: runtime error".

(** The text the library gives the error of [h.ID()] on a chain with no id. *)
Definition uninitialized_text : string :=
  "holochain: Meta key 'id' uninitialized".

(** [holo.DNAEntryType] and [holo.KeyEntryType]. *)
Definition DNAEntryType : string := "DNA".
Definition KeyEntryType : string := "%key".

(* ------------------------------------------------------------------ *)
(** ** What the command code does, as a trace of observable events *)

(** Library calls made by the commands. *)
Inductive Call :=
| CClone | CRemoveAll | CLoad | CGenDNAHashes | CEncodeDNA | CSum
| CActivate | CGenChain | CID | CReset | CTest | CWalk.

(** Goroutines started with [go]. *)
Inductive Task := THandlePutReqs | TGossip.

(** How [dump] prints an entry. *)
Inductive Rendered :=
| RRawBytes (s : string)      (** [string(e.([]byte))] *)
| RFields (k : KeyEntry)      (** [e.(holo.KeyEntry)] printed with [%v] *)
| RGeneric (v : EntryVal).    (** [e] printed with [%v] *)

(** One header as printed by [dump]: its four header lines, then the
    rendered entry; [d_entry] is [None] when the type assertion panics
    after the header lines and before the entry line. *)
Record DumpRecord := mkDump {
  d_type : string; d_key : Hash; d_time : Z;
  d_next_header : option Hash; d_next_type : option Hash;
  d_entry_link : Hash; d_entry : option Rendered
}.

Inductive Event :=
| Called (c : Call) (ok : bool)   (** a library call and whether it returned nil *)
| Spawned (t : Task)              (** [go h.DHT().HandlePutReqs()] etc. *)
| Served (port : string)          (** [serve(h, port)] *)
| Printed (r : DumpRecord)
| Panicked.                       (** a panic: a failed type assertion *)

(** The [holo] package as the commands use it, on a service state [S]
    holding the one chain the command names.  Results [(s, None)] are
    nil errors. *)
Class HoloLib (S : Type) := {
  svc_Clone : string -> string -> bool -> S -> S * option GoError;
  os_RemoveAll : string -> S -> S * option GoError;
  svc_Load : string -> S -> option GoError;
  h_GenDNAHashes : S -> S * option GoError;
  h_EncodeDNA : S -> GoError + list Byte.byte;
  h_Sum : list Byte.byte -> GoError + Hash;
  h_Activate : S -> S * option GoError;
  h_GenChain : S -> S * option GoError;
  h_ID : S -> GoError + Hash;
  h_Reset : S -> S * option GoError;
  h_Test : S -> list GoError;
  (** [h.Walk(fn, flag)] with a callback that always returns nil: the
      arguments of every callback invocation, in order, and the error. *)
  h_Walk : S -> bool -> list (Hash * Header * EntryVal) * option GoError;
  h_Name : S -> string
}.

(** Command-line context: arguments after the command name, the
    [--force] flag, whether [hc init] was run, and the [--path] root. *)
Record Ctx := mkCtx {
  args : list string;
  force : bool;
  initialized : bool;
  root : string
}.

(** [c.Args().First()] and [c.Args()[i]]: an absent argument is "". *)
Definition arg (c : Ctx) (i : nat) : string := default EmptyString (args c !! i).

(* ------------------------------------------------------------------ *)
(** ** The command monad: state, event trace, early [return err] *)

Definition M (S A : Type) : Type :=
  S * list Event -> (S * list Event) * (GoError + A).

Definition ret {S A} (a : A) : M S A := fun st => (st, inr a).
Definition throw {S A} (e : GoError) : M S A := fun st => (st, inl e).
Definition bind {S A B} (m : M S A) (k : A -> M S B) : M S B :=
  fun st => match m st with
            | (st', inl e) => (st', inl e)
            | (st', inr a) => k a st'
            end.

Notation "'let*' x := m 'in' k" := (bind m (fun x => k))
  (at level 200, x name, m at level 100, right associativity).

Section Commands.
Context {S : Type} `{HoloLib S}.
Local Abbreviation M := (M S).

Definition emit (ev : Event) : M unit := fun '(s, tr) => ((s, tr ++ [ev]), inr tt).
Definition get_state : M S := fun '(s, tr) => ((s, tr), inr s).

Definition is_ok (r : option GoError) : bool := if r then false else true.

(** A library call that may change the state and returns [error]:
    [err = op(); if err != nil { return err }]. *)
Definition call_err (c : Call) (op : S -> S * option GoError) : M unit :=
  fun '(s, tr) =>
    let '(s', r) := op s in
    ((s', tr ++ [Called c (is_ok r)]),
     match r with Some e => inl e | None => inr tt end).

(** A read-only call returning [(value, error)]; the caller inspects the error. *)
Definition call_val {A} (c : Call) (op : S -> GoError + A) : M (GoError + A) :=
  fun '(s, tr) =>
    let r := op s in
    ((s, tr ++ [Called c (if r then false else true)]), inr r).

Definition lift_err {A} (r : GoError + A) : M A :=
  match r with inl e => throw e | inr a => ret a end.

(** [checkForName] *)
Definition checkForName (c : Ctx) (cmd : string) : M string :=
  if negb (initialized c) then throw (errors_New "service not initialized, run 'hc init'")
  else let name := arg c 0 in
       if String.eqb name "" then
         throw (errors_New ("missing required holochain-name argument to " ++ cmd)%string)
       else ret name.

(** [getHolochain] *)
Definition getHolochain (c : Ctx) (cmd : string) : M unit :=
  let* name := checkForName c cmd in
  call_err CLoad (fun s => (s, svc_Load name s)).

(** [genChain] *)
Definition genChain (name : string) : M unit :=
  let* _ := call_err CLoad (fun s => (s, svc_Load name s)) in
  let* _ := call_err CGenDNAHashes h_GenDNAHashes in
  let* _ := call_err CActivate h_Activate in
  let* _ := call_err CGenChain h_GenChain in
  let* _ := emit (Spawned THandlePutReqs) in
  let* r := call_val CID h_ID in
  let* _ := lift_err r in
  ret tt.

(** The [clone] command. *)
Definition clone_action (c : Ctx) : M unit :=
  let srcPath := arg c 0 in
  if String.eqb srcPath "" then throw (errors_New "clone: missing required source path argument")
  else if Nat.eqb (length (args c)) 1 then
    throw (errors_New "clone: missing required holochain-name argument")
  else
    let name := arg c 1 in
    let* _ := (if force c then call_err CRemoveAll (os_RemoveAll (root c ++ "/" ++ name)%string)
               else ret tt) in
    call_err CClone (svc_Clone srcPath (root c ++ "/" ++ name)%string true).

(** The [join] command. *)
Definition join_action (c : Ctx) : M unit :=
  let srcPath := arg c 0 in
  if String.eqb srcPath "" then throw (errors_New "join: missing required source path argument")
  else if Nat.eqb (length (args c)) 1 then
    throw (errors_New "join: missing required holochain-name argument")
  else
    let name := arg c 1 in
    let* _ := call_err CClone (svc_Clone srcPath (root c ++ "/" ++ name)%string false) in
    genChain name.

(** The [seed] command. *)
Definition seed_action (c : Ctx) : M unit :=
  let* _ := getHolochain c "seed" in
  let* _ := call_err CGenDNAHashes h_GenDNAHashes in
  let* buf := call_val CEncodeDNA h_EncodeDNA in
  let* buf := lift_err buf in
  let* hash := call_val CSum (fun _ => h_Sum buf) in
  let* _ := lift_err hash in
  ret tt.

(** The [gen chain] command. *)
Definition gen_chain_action (c : Ctx) : M unit :=
  let* name := checkForName c "gen chain" in
  genChain name.

(** The [switch hdr.Type] of [dump]; [None] is the panic of a failed
    type assertion. *)
Definition render_entry (ty : string) (e : EntryVal) : option Rendered :=
  if String.eqb ty DNAEntryType then
    match e with VBytes b => Some (RRawBytes (string_of_list_byte b)) | _ => None end
  else if String.eqb ty KeyEntryType then
    match e with VKey k => Some (RFields k) | _ => None end
  else Some (RGeneric e).

(** Go's zero [holo.Header], what a missing map key reads as. *)
Definition zero_header : Header := mkHeader "" 0 None None 0.

(** The printing loop of [dump]: [links] is the map filled by the
    callback, [visits] the [(index[i], entries[i])] pairs in order. The
    four header lines are printed first; a failed type assertion then
    panics, ending the run. *)
Fixpoint dump_print (links : gmap Hash Header) (visits : list (Hash * EntryVal)) : M unit :=
  match visits with
  | [] => ret tt
  | (k, e) :: rest =>
      let hdr := default zero_header (links !! k) in
      let r := render_entry (Type_ hdr) e in
      let* _ := emit (Printed (mkDump (Type_ hdr) k (Time hdr) (HeaderLink hdr)
                                       (TypeLink hdr) (EntryLink hdr) r)) in
      match r with
      | Some _ => dump_print links rest
      | None => let* _ := emit Panicked in throw go_panic
      end
  end.

(** The callback of [dump]: [links[ks] = *header] for every visit. *)
Definition dump_links (visits : list (Hash * Header * EntryVal)) : gmap Hash Header :=
  foldl (fun m '(k, h, _) => <[k := h]> m) ∅ visits.

(** The [dump] command; the error returned by [h.Walk] is discarded. *)
Definition dump_action (c : Ctx) : M unit :=
  let* _ := getHolochain c "dump" in
  let* r := call_val CID h_ID in
  match r with
  | inl err =>
      if String.eqb (Error err) uninitialized_text then
        throw (errors_New "No data to dump, chain not yet initialized.")
      else throw err
  | inr _ =>
      let* s := get_state in
      let '(visits, werr) := h_Walk s true in
      let* _ := emit (Called CWalk (is_ok werr)) in
      let* _ := dump_print (dump_links visits) (map (fun '(k, _, e) => (k, e)) visits) in
      ret tt
  end.

(** Concatenation of the [Error()] texts of the failed tests. *)
Definition concat_errors (errs : list GoError) : string :=
  fold_left (fun s e => (s ++ Error e)%string) errs "".

(** The [test] command. *)
Definition test_action (c : Ctx) : M unit :=
  let* _ := getHolochain c "test" in
  let* _ := (if force c then call_err CReset h_Reset else ret tt) in
  let* _ := call_err CActivate h_Activate in
  let* s := get_state in
  let errs := h_Test s in
  let* _ := emit (Called CTest true) in
  throw (errors_New (concat_errors errs)).

(** The port [serve] listens on. *)
Definition serve_port (c : Ctx) : string :=
  if Nat.eqb (length (args c)) 1 then "3141" else arg c 1.

(** The [serve] command. *)
Definition serve_action (c : Ctx) : M unit :=
  let* _ := getHolochain c "serve" in
  let* r := call_val CID h_ID in
  let* s := get_state in
  match r with
  | inl err =>
      if String.eqb (Error err) uninitialized_text then
        throw (errors_New ("Can't serve an un-started chain. Run 'gen chain " ++ h_Name s
                           ++ "' to generate genesis entries and start the chain.")%string)
      else throw err
  | inr _ =>
      let port := serve_port c in
      let* _ := call_err CActivate h_Activate in
      let* _ := emit (Spawned THandlePutReqs) in
      let* _ := emit (Spawned TGossip) in
      emit (Served port)
  end.

(** The [reset] command. *)
Definition reset_action (c : Ctx) : M unit :=
  let* _ := getHolochain c "reset" in
  call_err CReset h_Reset.

End Commands.

(** The commands of [hc] that touch a chain. *)
Inductive Command := CmdClone | CmdJoin | CmdSeed | CmdGenChain | CmdDump | CmdTest | CmdServe | CmdReset.

Definition action {S} `{HoloLib S} (cmd : Command) : Ctx -> M S unit :=
  match cmd with
  | CmdClone => clone_action | CmdJoin => join_action | CmdSeed => seed_action
  | CmdGenChain => gen_chain_action | CmdDump => dump_action | CmdTest => test_action
  | CmdServe => serve_action | CmdReset => reset_action
  end.

(** What [main] sees of one run: the final state, the events, and the
    returned error ([None] is nil). *)
Definition run {S} `{HoloLib S} (cmd : Command) (c : Ctx) (s : S) (tr : list Event)
  : S * list Event * option GoError :=
  match action cmd c (s, tr) with
  | ((s', tr'), inl e) => (s', tr', Some e)
  | ((s', tr'), inr _) => (s', tr', None)
  end.

(** A session: commands run one after another on the same service. *)
Fixpoint run_all {S} `{HoloLib S} (cmds : list (Command * Ctx)) (s : S) (tr : list Event)
  : S * list Event :=
  match cmds with
  | [] => (s, tr)
  | (cmd, c) :: rest => let '(s', tr', _) := run cmd c s tr in run_all rest s' tr'
  end.

(* ------------------------------------------------------------------ *)
(** ** The [holo] library, modelled from the specification *)

Module SpecLib.

(** Modelled from the spec: the committed headers and entries of a
    chain (the storage collaborator), its head, and the last header of
    each type (for [TypeLink]). *)
Record Chain := mkChain {
  headers : gmap Hash Header;
  entries : gmap Hash EntryVal;
  head : option Hash;
  tops : gmap string Hash
}.

Definition empty_chain : Chain := mkChain ∅ ∅ None ∅.

(** Modelled from the spec: appending a header whose [HeaderLink] is
    the current head, under the (content) key [k]. *)
Definition append (ch : Chain) (k ek : Hash) (ty : string) (t : Z) (e : EntryVal) : Chain :=
  let hdr := mkHeader ty t (head ch) (tops ch !! ty) ek in
  mkChain (<[k := hdr]> (headers ch)) (<[ek := e]> (entries ch)) (Some k)
          (<[ty := k]> (tops ch)).

Definition corrupt_chain_error : GoError :=
  mkErr KCorruptChain "holochain: corrupt chain".
Definition not_found_error : GoError := mkErr KNotFound "holochain: hash not found".

Inductive Direction := NewestFirst | OldestFirst.

Definition Visit : Type := Hash -> Header -> EntryVal -> option GoError.
Abbreviation Visited := (list (Hash * Header * EntryVal)).

(** Modelled from the spec: following [HeaderLink] from [cur], calling
    [visit] on the way, with at most [fuel] visits; one more header than
    that is a [CorruptChainError]. *)
Fixpoint walk_from (ch : Chain) (visit : Visit) (fuel : nat) (cur : option Hash)
  : Visited * option GoError :=
  match cur with
  | None => ([], None)
  | Some k =>
      match fuel with
      | O => ([], Some corrupt_chain_error)
      | S f =>
          match headers ch !! k with
          | None => ([], Some not_found_error)
          | Some h =>
              match entries ch !! EntryLink h with
              | None => ([], Some not_found_error)
              | Some e =>
                  match visit k h e with
                  | Some err => ([(k, h, e)], Some err)
                  | None => let '(tr, r) := walk_from ch visit f (HeaderLink h) in
                            ((k, h, e) :: tr, r)
                  end
              end
          end
      end
  end.

(** Modelled from the spec: the path from [cur] collected without visiting. *)
Fixpoint collect (ch : Chain) (fuel : nat) (cur : option Hash) : Visited * option GoError :=
  match cur with
  | None => ([], None)
  | Some k =>
      match fuel with
      | O => ([], Some corrupt_chain_error)
      | S f =>
          match headers ch !! k with
          | None => ([], Some not_found_error)
          | Some h =>
              match entries ch !! EntryLink h with
              | None => ([], Some not_found_error)
              | Some e => let '(tr, r) := collect ch f (HeaderLink h) in ((k, h, e) :: tr, r)
              end
          end
      end
  end.

(** Calling [visit] on collected headers in order, stopping at its first error. *)
Fixpoint visit_all (visit : Visit) (l : Visited) : Visited * option GoError :=
  match l with
  | [] => ([], None)
  | (k, h, e) :: rest =>
      match visit k h e with
      | Some err => ([(k, h, e)], Some err)
      | None => let '(tr, r) := visit_all visit rest in ((k, h, e) :: tr, r)
      end
  end.

(** Modelled from the spec: [Walk(start, direction, visit)] from the
    head, bounded by the number of committed headers; oldest-first
    collects the path and emits it reversed. *)
Definition walk (ch : Chain) (d : Direction) (visit : Visit) : Visited * option GoError :=
  let n := size (headers ch) in
  match d with
  | NewestFirst => walk_from ch visit n (head ch)
  | OldestFirst =>
      match collect ch n (head ch) with
      | (_, Some err) => ([], Some err)
      | (path, None) => visit_all visit (rev path)
      end
  end.

(** A chain grown from nothing by appending [(key, entry key, type, time, entry)]. *)
Abbreviation Commit := (Hash * Hash * string * Z * EntryVal)%type.

Definition build (commits : list Commit) : Chain :=
  foldl (fun ch '(k, ek, ty, t, e) => append ch k ek ty t e) empty_chain commits.

Definition commit_key (c : Commit) : Hash := let '(k, _, _, _, _) := c in k.
Definition visited_key (v : Hash * Header * EntryVal) : Hash := let '(k, _, _) := v in k.

Definition no_abort : Visit := fun _ _ _ => None.

(** Modelled from the spec: the lifecycle states of a chain instance. *)
Inductive Phase := Created | Seeded | Genesis | Activated | Served_.

(** Modelled from the spec: [ChainInstance]. *)
Record Inst := mkInst {
  name : string;
  dna : list Byte.byte;
  hashed : bool;
  id : option Hash;
  phase : Phase;
  chain : Chain
}.

(** The service: the template DNA a clone copies, and the instance
    under the command's name, if any. *)
Record Service := mkService { template : list Byte.byte; inst : option Inst }.

Definition set_inst (s : Service) (i : option Inst) : Service := mkService (template s) i.

Definition fresh (n : string) (d : list Byte.byte) : Inst := mkInst n d false None Created empty_chain.

(** Modelled from the spec: ContentHasher, a deterministic digest of bytes. *)
Definition content_hash (bs : list Byte.byte) : Hash :=
  foldl (fun acc b => acc * 257 + Z.of_N (Byte.to_N b) + 1) 0 bs.

(** Modelled from the spec: the key of a header, a digest of its fields. *)
Definition header_hash (h : Header) : Hash := 2 * EntryLink h + 1.

Definition malformed_dna_error := mkErr KMalformedDNA "holochain: malformed DNA".
Definition already_initialized_error := mkErr KAlreadyInitialized "holochain: already initialized".
Definition not_seeded_error := mkErr KNotSeeded "holochain: not seeded".
Definition duplicate_name_error := mkErr KDuplicateName "holochain: name exists".
Definition uninitialized_error := mkErr KUninitialized uninitialized_text.

(** Modelled from the spec: the operations on a loaded instance;
    without an instance they fail with [NotFoundError]. *)
Definition with_inst (f : Inst -> option Inst * option GoError) (s : Service)
  : Service * option GoError :=
  match inst s with
  | None => (s, Some not_found_error)
  | Some i => let '(i', r) := f i in (set_inst s (Some (default i i')), r)
  end.

(** Modelled from the spec: Seed. *)
Definition GenDNAHashes : Service -> Service * option GoError :=
  with_inst (fun i =>
    if decide (dna i = []) then (None, Some malformed_dna_error)
    else (Some (mkInst (name i) (dna i) true (id i)
                  (match phase i with Created => Seeded | p => p end) (chain i)), None)).

(** Modelled from the spec: Activate. *)
Definition Activate : Service -> Service * option GoError :=
  with_inst (fun i =>
    match id i with
    | None => (None, Some not_seeded_error)
    | Some _ => (Some (mkInst (name i) (dna i) (hashed i) (id i) Activated (chain i)), None)
    end).

(** Modelled from the spec: GenerateGenesis, committing the DNA entry
    under a genesis header and setting [Id] to the entry's identifier. *)
Definition GenChain : Service -> Service * option GoError :=
  with_inst (fun i =>
    match id i with
    | Some _ => (None, Some already_initialized_error)
    | None =>
        let ek := content_hash (dna i) in
        let k := header_hash (mkHeader DNAEntryType 0 None None ek) in
        (Some (mkInst (name i) (dna i) (hashed i) (Some ek) Genesis
                      (append (chain i) k ek DNAEntryType 0 (VBytes (dna i)))), None)
    end).

(** Modelled from the spec: Reset, back to a fresh [Created] instance. *)
Definition Reset_ : Service -> Service * option GoError :=
  with_inst (fun i => (Some (fresh (name i) (dna i)), None)).

(** Modelled from the spec: the chain [Id], or the uninitialized error. *)
Definition ID (s : Service) : GoError + Hash :=
  match inst s with
  | None => inl not_found_error
  | Some i => match id i with None => inl uninitialized_error | Some h => inr h end
  end.

Definition Clone_ (src path : string) (_ : bool) (s : Service) : Service * option GoError :=
  match inst s with
  | Some _ => (s, Some duplicate_name_error)
  | None => (set_inst s (Some (fresh path (template s))), None)
  end.

Definition RemoveAll (_ : string) (s : Service) : Service * option GoError :=
  (set_inst s None, None).

Definition Load (_ : string) (s : Service) : option GoError :=
  match inst s with None => Some not_found_error | Some _ => None end.

Definition EncodeDNA (s : Service) : GoError + list Byte.byte :=
  match inst s with None => inl not_found_error | Some i => inr (dna i) end.

Definition Walk (s : Service) (newest_first : bool) : Visited * option GoError :=
  match inst s with
  | None => ([], Some not_found_error)
  | Some i => walk (chain i) (if newest_first then NewestFirst else OldestFirst) no_abort
  end.

#[export] Instance spec_lib : HoloLib Service := {|
  svc_Clone := Clone_;
  os_RemoveAll := RemoveAll;
  svc_Load := Load;
  h_GenDNAHashes := GenDNAHashes;
  h_EncodeDNA := EncodeDNA;
  h_Sum := fun bs => inr (content_hash bs);
  h_Activate := Activate;
  h_GenChain := GenChain;
  h_ID := ID;
  h_Reset := Reset_;
  h_Test := fun _ => [];
  h_Walk := Walk;
  h_Name := fun s => match inst s with Some i => name i | None => "" end
|}.

(** The path from [cur] is exactly [l], every header and entry resolves,
    and it ends at a nil [HeaderLink]. *)
Inductive linked (ch : Chain) : option Hash -> Visited -> Prop :=
| linked_nil : linked ch None []
| linked_cons k h e l :
    headers ch !! k = Some h -> entries ch !! EntryLink h = Some e ->
    linked ch (HeaderLink h) l -> linked ch (Some k) ((k, h, e) :: l).

(** The first [l] headers of the path from [cur]: every header and
    entry resolves, and each is reached by the previous [HeaderLink];
    unlike [linked], the path need not end (it may run round a cycle). *)
Inductive path_from (ch : Chain) : option Hash -> Visited -> Prop :=
| path_nil cur : path_from ch cur []
| path_cons k h e l :
    headers ch !! k = Some h -> entries ch !! EntryLink h = Some e ->
    path_from ch (HeaderLink h) l -> path_from ch (Some k) ((k, h, e) :: l).

(** The library's lifecycle operations, as a caller sequences them. *)
Inductive LifeOp := OClone | OSeed | OGenesis | OActivate | OReset | ORemove.

Definition life_step (o : LifeOp) : M Service unit :=
  match o with
  | OClone => call_err CClone (Clone_ "app" "alice" true)
  | OSeed => call_err CGenDNAHashes GenDNAHashes
  | OGenesis => call_err CGenChain GenChain
  | OActivate => call_err CActivate Activate
  | OReset => call_err CReset Reset_
  | ORemove => call_err CRemoveAll (RemoveAll "alice")
  end.

(** A lifecycle sequence: each operation is attempted in turn. *)
Fixpoint run_life (os : list LifeOp) (s : Service) (tr : list Event) : Service * list Event :=
  match os with
  | [] => (s, tr)
  | o :: rest => let '((s', tr'), _) := life_step o (s, tr) in run_life rest s' tr'
  end.

End SpecLib.

(* ------------------------------------------------------------------ *)
(** ** Trace monitors *)

#[export] Instance Call_eq_dec : EqDecision Call.
Proof. solve_decision. Defined.

Definition is_spawn (ev : Event) : bool := match ev with Spawned _ => true | _ => false end.

Definition is_call (c : Call) (ok : bool) (ev : Event) : bool :=
  match ev with Called c' ok' => bool_decide (c = c') && Bool.eqb ok ok' | _ => false end.

Definition is_call_any (c : Call) (ev : Event) : bool :=
  match ev with Called c' _ => bool_decide (c = c') | _ => false end.

(** Every event satisfying [target] comes after one satisfying [req]
    ([seen]: one already has). *)
Fixpoint preceded (target req : Event -> bool) (seen : bool) (tr : list Event) : bool :=
  match tr with
  | [] => true
  | ev :: rest => (negb (target ev) || seen) && preceded target req (seen || req ev) rest
  end.

(** The events of one run of a command on a fresh trace. *)
Definition events_of {S} `{HoloLib S} (cmd : Command) (c : Ctx) (s : S) : list Event :=
  let '(_, tr, _) := run cmd c s [] in tr.

(** The error one run of a command returns. *)
Definition result_of {S} `{HoloLib S} (cmd : Command) (c : Ctx) (s : S) : option GoError :=
  let '(_, _, r) := run cmd c s [] in r.

(** What [dump] prints for a sequence of visits when every header is
    read back from the visit itself: one record per visit, in order, up
    to the first entry whose type assertion fails, of which only the
    header lines are printed before the panic. *)
Fixpoint expected_dump (visits : list (Hash * Header * EntryVal)) : list Event :=
  match visits with
  | [] => []
  | (k, h, e) :: rest =>
      let r := render_entry (Type_ h) e in
      Printed (mkDump (Type_ h) k (Time h) (HeaderLink h) (TypeLink h) (EntryLink h) r) ::
      match r with
      | Some _ => expected_dump rest
      | None => [Panicked]
      end
  end.

(** The library of [SpecLib], except that [h.ID()] fails with an error
    of kind [k] and text [txt]. *)
Definition id_error_lib (k : ErrKind) (txt : string) : HoloLib SpecLib.Service := {|
  svc_Clone := SpecLib.Clone_;
  os_RemoveAll := SpecLib.RemoveAll;
  svc_Load := SpecLib.Load;
  h_GenDNAHashes := SpecLib.GenDNAHashes;
  h_EncodeDNA := SpecLib.EncodeDNA;
  h_Sum := fun bs => inr (SpecLib.content_hash bs);
  h_Activate := SpecLib.Activate;
  h_GenChain := SpecLib.GenChain;
  h_ID := fun _ => inl (mkErr k txt);
  h_Reset := SpecLib.Reset_;
  h_Test := fun _ => [];
  h_Walk := SpecLib.Walk;
  h_Name := fun s => match SpecLib.inst s with Some i => SpecLib.name i | None => "" end
|}.

(** A service whose chain "alice" has had its genesis generated, and
    the context of [hc <cmd> alice]. *)
Definition alice_genesis : SpecLib.Service :=
  fst (SpecLib.GenChain (SpecLib.mkService [Byte.x41] (Some (SpecLib.fresh "alice" [Byte.x41])))).

Definition alice_ctx (frc : bool) : Ctx := mkCtx ["alice"] frc true "/r".

(** The chain "alice" freshly cloned: no [Id] yet. *)
Definition alice_fresh : SpecLib.Service :=
  SpecLib.mkService [Byte.x41] (Some (SpecLib.fresh "alice" [Byte.x41])).

(** The library of [SpecLib], except that [Activate] does not check
    the [Id]: it activates any loaded instance. *)
Definition lax_lib : HoloLib SpecLib.Service := {|
  svc_Clone := SpecLib.Clone_;
  os_RemoveAll := SpecLib.RemoveAll;
  svc_Load := SpecLib.Load;
  h_GenDNAHashes := SpecLib.GenDNAHashes;
  h_EncodeDNA := SpecLib.EncodeDNA;
  h_Sum := fun bs => inr (SpecLib.content_hash bs);
  h_Activate := SpecLib.with_inst (fun i =>
    (Some (SpecLib.mkInst (SpecLib.name i) (SpecLib.dna i) (SpecLib.hashed i) (SpecLib.id i)
                          SpecLib.Activated (SpecLib.chain i)), None));
  h_GenChain := SpecLib.GenChain;
  h_ID := SpecLib.ID;
  h_Reset := SpecLib.Reset_;
  h_Test := fun _ => [];
  h_Walk := SpecLib.Walk;
  h_Name := fun s => match SpecLib.inst s with Some i => SpecLib.name i | None => "" end
|}.

(** A chain whose DNA header carries an entry that is not a byte
    slice: [dump] prints the header lines, then the type assertion panics. *)
Definition bad_dna_service : SpecLib.Service :=
  SpecLib.mkService [] (Some (SpecLib.mkInst "alice" [] true (Some 5) SpecLib.Genesis
    (SpecLib.append SpecLib.empty_chain 11 5 DNAEntryType 0 (VOther "x")))).

(** A chain whose only header links back to itself. *)
Definition loop_header : Header := mkHeader "post" 0 (Some 1) None 2.

Definition loop_chain : SpecLib.Chain :=
  SpecLib.mkChain {[1 := loop_header]} {[2 := VOther "x"]} (Some 1) ∅.

(** A visit [(k, h, e)] reads the header stored under [k] and the entry
    stored under its [EntryLink]. *)
Definition stored (ch : SpecLib.Chain) (v : Hash * Header * EntryVal) : Prop :=
  let '(k, h, e) := v in SpecLib.headers ch !! k = Some h /\ SpecLib.entries ch !! EntryLink h = Some e.

(** The chain [ch] with the type of every header renamed by [g]; links,
    entries and the head are unchanged. *)
Definition retype_header (g : string -> string) (h : Header) : Header :=
  mkHeader (g (Type_ h)) (Time h) (HeaderLink h) (TypeLink h) (EntryLink h).

Definition retype (g : string -> string) (ch : SpecLib.Chain) : SpecLib.Chain :=
  SpecLib.mkChain (retype_header g <$> SpecLib.headers ch) (SpecLib.entries ch)
                  (SpecLib.head ch) (SpecLib.tops ch).

Definition retype_visit (g : string -> string) (v : Hash * Header * EntryVal)
  : Hash * Header * EntryVal :=
  let '(k, h, e) := v in (k, retype_header g h, e).

(** The events [dump] prints. *)
Definition dump_event (ev : Event) : Prop :=
  match ev with Printed _ | Panicked => True | _ => False end.

(* ------------------------------------------------------------------ *)
(** ** The other commands of [setupApp], [listChains] and [app.Before] *)

(** The further [holo] calls these commands make. *)
Class HoloCli (S : Type) := {
  (** [service.GenDev(path, format)] *)
  svc_GenDev : string -> string -> S -> S * option GoError;
  (** [holo.Init(root, holo.AgentName(agent))] *)
  holo_Init : string -> string -> S -> S * option GoError;
  (** [h.Call(zome, function, arguments)]: the result printed with [%v] *)
  h_Call : string -> string -> string -> S -> S * (GoError + string);
  (** [h.BSpost()] *)
  h_BSpost : S -> S * option GoError;
  (** [s.ConfiguredChains()]: each configured chain by name, as the
      result of its [ID()], and the error *)
  svc_ConfiguredChains : S -> gmap string (GoError + Hash) * option GoError;
  (** [id.String()] *)
  Hash_String : Hash -> string
}.

Inductive XCall := XGenDev | XInit | XCallFn | XBSpost | XConfiguredChains.

(** Observable events of these commands: the events of the command code
    they share with the others, their own library calls, the lines they
    print with [fmt.Println]/[fmt.Printf], [cli.ShowAppHelp], and the
    runtime panic of an out-of-range slice index. *)
Inductive XEvent :=
| XBase (e : Event)
| XCalled (c : XCall) (ok : bool)
| XLine (s : string)
| XHelp
| XIndexPanic.

Definition XM (S A : Type) : Type :=
  S * list XEvent -> (S * list XEvent) * (GoError + A).

Definition xret {S A} (a : A) : XM S A := fun st => (st, inr a).
Definition xthrow {S A} (e : GoError) : XM S A := fun st => (st, inl e).
Definition xbind {S A B} (m : XM S A) (k : A -> XM S B) : XM S B :=
  fun st => match m st with
            | (st', inl e) => (st', inl e)
            | (st', inr a) => k a st'
            end.

Notation "'let!' x := m 'in' k" := (xbind m (fun x => k))
  (at level 200, x name, m at level 100, right associativity).

(** [strings.Join(l, sep)]. *)
Fixpoint strings_Join (l : list string) (sep : string) : string :=
  match l with
  | [] => ""
  | [x] => x
  | x :: rest => (x ++ sep ++ strings_Join rest sep)%string
  end.

(** The [uninitialized] error set by [app.Before]. *)
Definition uninitialized_err : GoError := errors_New "service not initialized, run 'hc init'".

Section CliCommands.
Context {S : Type} `{HoloLib S} `{HoloCli S}.
Local Abbreviation XM := (XM S).

(** Code shared with the other commands, its events kept in order. *)
Definition lift {A} (m : M S A) : XM A :=
  fun '(s, tr) => let '((s', tr'), r) := m (s, []) in ((s', tr ++ map XBase tr'), r).

Definition xemit (ev : XEvent) : XM unit := fun '(s, tr) => ((s, tr ++ [ev]), inr tt).
Definition xget : XM S := fun '(s, tr) => ((s, tr), inr s).

Definition x_call (c : XCall) (op : S -> S * option GoError) : XM unit :=
  fun '(s, tr) =>
    let '(s', r) := op s in
    ((s', tr ++ [XCalled c (is_ok r)]),
     match r with Some e => inl e | None => inr tt end).

Definition x_val {A} (c : XCall) (op : S -> S * (GoError + A)) : XM (GoError + A) :=
  fun '(s, tr) =>
    let '(s', r) := op s in
    ((s', tr ++ [XCalled c (if r then false else true)]), inr r).

(** [format == "json" || format == "yaml" || format == "toml"] *)
Definition valid_format (f : string) : bool :=
  String.eqb f "json" || String.eqb f "yaml" || String.eqb f "toml".

(** The [dev] command. *)
Definition dev_action (c : Ctx) : XM unit :=
  let! name := lift (checkForName c "dev") in
  let! format := (if Nat.eqb (length (args c)) 2 then
                    let f := arg c 1 in
                    if valid_format f then xret f
                    else xthrow (errors_New "gen dev: format must be one of yaml,toml,json")
                  else xret "toml") in
  let! _ := (if force c then lift (call_err CRemoveAll (os_RemoveAll (root c ++ "/" ++ name)%string))
             else xret tt) in
  x_call XGenDev (svc_GenDev (root c ++ "/" ++ name)%string format).

(** The [gen keys] command. *)
Definition gen_keys_action (c : Ctx) : XM unit := xthrow (errors_New "not yet implemented").

(** The [init] command. *)
Definition init_action (c : Ctx) : XM unit :=
  let agent := arg c 0 in
  if String.eqb agent "" then xthrow (errors_New "missing required agent-id argument to init")
  else
    let! _ := x_call XInit (holo_Init (root c) agent) in
    xemit (XLine "Holochain service initialized").

(** The line [fmt.Println("    ", k, sid)] prints for one chain. *)
Definition chain_line (k : string) (r : GoError + Hash) : string :=
  let sid := match r with inl _ => "<not-started>" | inr id => Hash_String id end in
  ("    " ++ " " ++ k ++ " " ++ sid)%string.

(** [listChains]; [enum] is the order in which the Go runtime ranges
    over the map of chains. *)
Definition listChains (enum : gmap string (GoError + Hash) -> list (string * (GoError + Hash)))
  : XM unit :=
  let! s := xget in
  let '(chains, cerr) := svc_ConfiguredChains s in
  let! _ := xemit (XCalled XConfiguredChains (is_ok cerr)) in
  if Nat.ltb 0 (size chains) then
    let! _ := xemit (XLine "installed holochains: ") in
    fold_right (fun '(k, r) m => let! _ := xemit (XLine (chain_line k r)) in m)
               (xret tt) (enum chains)
  else xemit (XLine "no installed chains").

(** The [status] command. *)
Definition status_action enum (c : Ctx) : XM unit :=
  if negb (initialized c) then xthrow uninitialized_err
  else let! _ := listChains enum in xret tt.

(** [app.Action], run when no command is given. *)
Definition app_action enum (c : Ctx) : XM unit :=
  if negb (initialized c) then xemit XHelp
  else let! _ := listChains enum in xret tt.

(** The [call] command; [os_Args] is [os.Args], which it indexes
    directly (not [c.Args()]). *)
Definition call_action (os_Args : list string) (c : Ctx) : XM unit :=
  let! _ := lift (getHolochain c "call") in
  match os_Args !! 3%nat, os_Args !! 4%nat with
  | Some zome, Some function =>
      let params := drop 5 os_Args in
      let! _ := xemit (XLine ("calling " ++ function ++ " on zome " ++ zome ++ " with params ["
                              ++ strings_Join params " " ++ "]")%string) in
      let! r := x_val XCallFn (h_Call zome function (strings_Join params " ")) in
      match r with
      | inl e => xthrow e
      | inr result => xemit (XLine result)
      end
  | _, _ => let! _ := xemit XIndexPanic in xthrow go_panic
  end.

(** The [bs] command. *)
Definition bs_action (c : Ctx) : XM unit :=
  let! _ := lift (getHolochain c "bs") in
  x_call XBSpost h_BSpost.

End CliCommands.

(** A run of one of these actions from state [s], as [run] does it. *)
Definition xrun {S} (m : XM S unit) (s : S) : S * list XEvent * option GoError :=
  match m (s, []) with
  | ((s', tr), inl e) => (s', tr, Some e)
  | ((s', tr), inr _) => (s', tr, None)
  end.

(** The process environment [app.Before] consults. *)
Inductive LogLevel := INFO | DEBUG.

Record Env := mkEnv {
  HOLOPATH : string;                      (** [os.Getenv("HOLOPATH")] *)
  user_Current : GoError + string;        (** [user.Current()], its [HomeDir] *)
  DefaultDirectoryName : string;          (** [holo.DefaultDirectoryName] *)
  IsInitialized : string -> bool;         (** [holo.IsInitialized(root)] *)
  LoadService : string -> option GoError  (** the error of [holo.LoadService(root)] *)
}.

(** What [app.Before] leaves behind: the log level, [root],
    [initialized], and its returned error. *)
Record BeforeResult := mkBefore {
  b_level : LogLevel; b_root : string; b_initialized : bool; b_err : option GoError
}.

(** [app.Before], with [root] the value of [--path]. *)
Definition before (debug : bool) (root : string) (env : Env) : BeforeResult :=
  let level := if debug then DEBUG else INFO in
  let r := if String.eqb root "" then
             let root' := HOLOPATH env in
             if String.eqb root' "" then
               match user_Current env with
               | inl e => inl e
               | inr home => inr (home ++ "/" ++ DefaultDirectoryName env)%string
               end
             else inr root'
           else inr root in
  match r with
  | inl e => mkBefore level "" false (Some e)
  | inr root' =>
      if IsInitialized env root' then mkBefore level root' true (LoadService env root')
      else mkBefore level root' false None
  end.

(** The name each chain command passes to [checkForName]. *)
Definition cmd_label (cmd : Command) : string :=
  match cmd with
  | CmdClone => "clone" | CmdJoin => "join" | CmdSeed => "seed"
  | CmdGenChain => "gen chain" | CmdDump => "dump" | CmdTest => "test"
  | CmdServe => "serve" | CmdReset => "reset"
  end.

(** A concrete [holo] for the further commands, over the service of
    [SpecLib]: generation, init and bootstrap succeed, [h.Call] echoes
    its arguments, and the configured chains are the loaded one. *)
#[export] Instance demo_cli : HoloCli SpecLib.Service := {|
  svc_GenDev := fun _ _ s => (s, None);
  holo_Init := fun _ _ s => (s, None);
  h_Call := fun zome fn a s => (s, inr (zome ++ "." ++ fn ++ "(" ++ a ++ ")")%string);
  h_BSpost := fun s => (s, None);
  svc_ConfiguredChains := fun s =>
    match SpecLib.inst s with
    | Some i => ({[SpecLib.name i := SpecLib.ID s]}, None)
    | None => (∅, None)
    end;
  Hash_String := fun h => pretty (Z.to_N h)
|}.

(* ================================================================== *)
(** * Proofs *)

Import SpecLib.

(** ** The walker *)

Lemma walk_from_linked ch f cur l :
  linked ch cur l -> (length l <= f)%nat -> walk_from ch no_abort f cur = (l, None).
Proof.
  intros Hl. revert f. induction Hl as [|k h e l Hh He Hl IH]; intros f Hf; [by destruct f|].
  destruct f as [|f]; simpl in Hf; [lia|].
  simpl. rewrite Hh, He. unfold no_abort at 1. rewrite IH by lia. done.
Qed.

Lemma collect_linked ch f cur l :
  linked ch cur l -> (length l <= f)%nat -> collect ch f cur = (l, None).
Proof.
  intros Hl. revert f. induction Hl as [|k h e l Hh He Hl IH]; intros f Hf; [by destruct f|].
  destruct f as [|f]; simpl in Hf; [lia|].
  simpl. rewrite Hh, He, IH by lia. done.
Qed.

Lemma visit_all_no_abort l : visit_all no_abort l = (l, None).
Proof. induction l as [|[[k h] e] l IH]; simpl; [done|]. by rewrite IH. Qed.

Lemma visit_all_prefix v l tr r :
  visit_all v l = (tr, r) -> (length tr <= length l)%nat /\ (r = None -> tr = l).
Proof.
  revert tr r. induction l as [|[[k h] e] l IH]; intros tr r Hv; simpl in Hv.
  - inversion Hv; subst. simpl. split; [lia|done].
  - destruct (v k h e) as [err|].
    + inversion Hv; subst. simpl. split; [lia|discriminate].
    + destruct (visit_all v l) as [tr' r'] eqn:E. inversion Hv; subst.
      destruct (IH _ _ eq_refl) as [IH1 IH2]. simpl. split; [lia|].
      intros ->. by rewrite IH2.
Qed.

Lemma walk_from_ok_linked ch v f cur tr :
  walk_from ch v f cur = (tr, None) -> linked ch cur tr /\ (length tr <= f)%nat.
Proof.
  revert cur tr. induction f as [|f IH]; intros [k|] tr Hw; simpl in Hw.
  - discriminate.
  - inversion Hw; subst. split; [constructor|simpl; lia].
  - destruct (headers ch !! k) as [h|] eqn:Hh; [|discriminate].
    destruct (entries ch !! EntryLink h) as [e|] eqn:He; [|discriminate].
    destruct (v k h e); [discriminate|].
    destruct (walk_from ch v f (HeaderLink h)) as [tr' r'] eqn:E. inversion Hw; subst.
    destruct (IH _ _ E) as [IH1 IH2]. split; [by constructor|simpl; lia].
  - inversion Hw; subst. split; [constructor|simpl; lia].
Qed.

Lemma walk_from_length ch v f cur tr r :
  walk_from ch v f cur = (tr, r) -> (length tr <= f)%nat.
Proof.
  revert cur tr r. induction f as [|f IH]; intros [k|] tr r Hw; simpl in Hw;
    try (inversion Hw; subst; simpl; lia).
  destruct (headers ch !! k) as [h|]; [|inversion Hw; subst; simpl; lia].
  destruct (entries ch !! EntryLink h) as [e|]; [|inversion Hw; subst; simpl; lia].
  destruct (v k h e); [inversion Hw; subst; simpl; lia|].
  destruct (walk_from ch v f (HeaderLink h)) as [tr' r'] eqn:E. inversion Hw; subst.
  simpl. specialize (IH _ _ _ E). lia.
Qed.

Lemma collect_ok_linked ch f cur tr :
  collect ch f cur = (tr, None) -> linked ch cur tr /\ (length tr <= f)%nat.
Proof.
  revert cur tr. induction f as [|f IH]; intros [k|] tr Hw; simpl in Hw.
  - discriminate.
  - inversion Hw; subst. split; [constructor|simpl; lia].
  - destruct (headers ch !! k) as [h|] eqn:Hh; [|discriminate].
    destruct (entries ch !! EntryLink h) as [e|] eqn:He; [|discriminate].
    destruct (collect ch f (HeaderLink h)) as [tr' r'] eqn:E. inversion Hw; subst.
    destruct (IH _ _ E) as [IH1 IH2]. split; [by constructor|simpl; lia].
  - inversion Hw; subst. split; [constructor|simpl; lia].
Qed.

Lemma linked_det ch cur l1 l2 : linked ch cur l1 -> linked ch cur l2 -> l1 = l2.
Proof.
  intros H1. revert l2. induction H1 as [|k h e l Hh He Hl IH]; intros l2 H2.
  - by inversion H2.
  - inversion H2 as [|k' h' e' l' Hh' He' Hl']; subst.
    rewrite Hh in Hh'. injection Hh' as <-. rewrite He in He'. injection He' as <-.
    f_equal. by apply IH.
Qed.

Lemma linked_suffix ch cur pre x suf :
  linked ch cur (pre ++ x :: suf) -> linked ch (Some (visited_key x)) (x :: suf).
Proof.
  revert cur. induction pre as [|y pre IH]; intros cur Hl; simpl in Hl.
  - by inversion Hl; subst.
  - inversion Hl; subst. eauto.
Qed.

Lemma linked_nodup ch cur l : linked ch cur l -> NoDup (map visited_key l).
Proof.
  induction 1 as [|k h e l Hh He Hl IH]; simpl; [constructor|constructor; [|done]].
  intros Hin. apply list_elem_of_In, in_map_iff in Hin as [x [Hx Hin]].
  apply in_split in Hin as [pre [suf ->]].
  pose proof (linked_suffix _ _ _ _ _ Hl) as Hs. rewrite Hx in Hs.
  assert (Hk : linked ch (Some k) ((k, h, e) :: pre ++ x :: suf)) by (by constructor).
  pose proof (linked_det _ _ _ _ Hs Hk) as Heq.
  apply (f_equal length) in Heq. simpl in Heq. rewrite length_app in Heq. simpl in Heq. lia.
Qed.

Lemma linked_length_le ch f cur tr :
  collect ch f cur = (tr, None) -> (length tr <= f)%nat.
Proof. intros H. by apply collect_ok_linked in H as [_ ?]. Qed.

Lemma build_snoc cs k ek ty t e :
  build (cs ++ [(k, ek, ty, t, e)]) = append (build cs) k ek ty t e.
Proof. unfold build. by rewrite foldl_app. Qed.

Lemma build_headers_fresh cs k :
  k ∉ map commit_key cs -> headers (build cs) !! k = None.
Proof.
  induction cs as [|[[[[k' ek] ty] t] e] cs IH] using rev_ind; intros Hk; [done|].
  rewrite build_snoc. simpl. rewrite map_app in Hk. simpl in Hk.
  rewrite lookup_insert_ne.
  - apply IH. intros Hin. apply Hk. apply elem_of_app. by left.
  - intros ->. apply Hk. apply elem_of_app. right. by left.
Qed.

Lemma build_size cs : NoDup (map commit_key cs) -> size (headers (build cs)) = length cs.
Proof.
  induction cs as [|[[[[k ek] ty] t] e] cs IH] using rev_ind; intros Hnd; [done|].
  rewrite build_snoc. simpl. rewrite map_app in Hnd. simpl in Hnd.
  apply NoDup_app in Hnd as [Hnd [Hdis _]].
  rewrite map_size_insert_None.
  - rewrite IH by done. rewrite length_app. simpl. lia.
  - apply build_headers_fresh. intros Hin. by apply (Hdis k Hin); left.
Qed.

Lemma linked_append ch cur l k ek ty t e :
  linked ch cur l -> k ∉ map visited_key l ->
  exists l', linked (append ch k ek ty t e) cur l' /\ map visited_key l' = map visited_key l.
Proof.
  induction 1 as [|k' h e' l Hh He Hl IH]; intros Hk.
  - exists []. split; [constructor|done].
  - simpl in Hk. destruct IH as [l' [Hl' Hm]].
    { intros Hin. apply Hk. by right. }
    assert (Hne : k' <> k) by (intros ->; apply Hk; by left).
    destruct (decide (EntryLink h = ek)) as [Hek|Hek].
    + exists ((k', h, e) :: l'). split; [|simpl; by rewrite Hm].
      constructor; simpl; [by rewrite lookup_insert_ne|rewrite Hek; by rewrite lookup_insert_eq|done].
    + exists ((k', h, e') :: l'). split; [|simpl; by rewrite Hm].
      constructor; simpl; [by rewrite lookup_insert_ne|by rewrite lookup_insert_ne|done].
Qed.

Lemma build_linked cs :
  NoDup (map commit_key cs) ->
  exists l, linked (build cs) (head (build cs)) l /\ map visited_key l = rev (map commit_key cs).
Proof.
  induction cs as [|[[[[k ek] ty] t] e] cs IH] using rev_ind; intros Hnd.
  - exists []. split; [constructor|done].
  - rewrite map_app in Hnd. simpl in Hnd.
    pose proof Hnd as Hnd'. apply NoDup_app in Hnd' as [Hnd0 [Hdis _]].
    destruct (IH Hnd0) as [l [Hl Hm]].
    assert (Hk : k ∉ map visited_key l).
    { rewrite Hm. intros Hin. apply list_elem_of_In, in_rev, list_elem_of_In in Hin.
      by apply (Hdis k Hin); left. }
    destruct (linked_append _ _ _ k ek ty t e Hl Hk) as [l' [Hl' Hm']].
    rewrite build_snoc.
    exists ((k, mkHeader ty t (head (build cs)) (tops (build cs) !! ty) ek, e) :: l').
    split.
    + constructor; simpl; [by rewrite lookup_insert_eq|by rewrite lookup_insert_eq|done].
    + simpl. rewrite map_app, rev_app_distr, Hm', Hm. done.
Qed.

Lemma walk_bounded_nodup ch d v tr r :
  walk ch d v = (tr, r) ->
  (length tr <= size (headers ch))%nat /\ (r = None -> NoDup (map visited_key tr)).
Proof.
  unfold walk. destruct d.
  - intros Hw. split; [by eapply walk_from_length|].
    intros ->. apply walk_from_ok_linked in Hw as [Hl _]. by eapply linked_nodup.
  - destruct (collect ch (size (headers ch)) (head ch)) as [path [err|]] eqn:Hc.
    + intros Hw. inversion Hw; subst. split; [simpl; lia|discriminate].
    + intros Hw. apply collect_ok_linked in Hc as [Hl Hlen].
      apply visit_all_prefix in Hw as [Hw1 Hw2]. rewrite length_rev in Hw1.
      split; [lia|]. intros Hr. rewrite (Hw2 Hr), map_rev.
      apply NoDup_ListNoDup, NoDup_rev, NoDup_ListNoDup. by eapply linked_nodup.
Qed.

Lemma walk_from_overlong ch f cur l :
  path_from ch cur l -> (f < length l)%nat ->
  walk_from ch no_abort f cur = (take f l, Some corrupt_chain_error).
Proof.
  revert cur l. induction f as [|f IH]; intros cur l Hp Hlt;
    (destruct Hp as [cur|k h e l Hh He Hp]; [simpl in Hlt; lia|]); [done|].
  simpl in Hlt. simpl. rewrite Hh, He. rewrite (IH _ _ Hp) by lia. done.
Qed.

Lemma collect_overlong ch f cur l :
  path_from ch cur l -> (f < length l)%nat ->
  collect ch f cur = (take f l, Some corrupt_chain_error).
Proof.
  revert cur l. induction f as [|f IH]; intros cur l Hp Hlt;
    (destruct Hp as [cur|k h e l Hh He Hp]; [simpl in Hlt; lia|]); [done|].
  simpl in Hlt. simpl. rewrite Hh, He, (IH _ _ Hp) by lia. done.
Qed.

(** C3: on a chain whose N committed headers all lie on the path from
    its head, the newest-first walk calls the callback exactly N times,
    once per header, newest first, and the oldest-first walk emits
    exactly the reverse; in particular on any chain built by appending
    N headers under distinct keys. On any chain whatsoever, a walk
    invokes the callback at most N times and a walk that ends without
    error has visited no header twice; and when the links from the head
    lead on past N headers (a cycle), the walk stops after N visits with
    a [CorruptChainError] instead of looping. *)
Theorem walk_visits_each_header_once :
  (forall ch l, linked ch (head ch) l -> length l = size (headers ch) ->
     walk ch NewestFirst no_abort = (l, None) /\ NoDup (map visited_key l) /\
     walk ch OldestFirst no_abort = (rev l, None)) /\
  (forall cs, NoDup (map commit_key cs) ->
  exists nf,
     walk (build cs) NewestFirst no_abort = (nf, None) /\
     length nf = size (headers (build cs)) /\ length nf = length cs /\
     NoDup (map visited_key nf) /\ map visited_key nf = rev (map commit_key cs) /\
     walk (build cs) OldestFirst no_abort = (rev nf, None)) /\
  (forall ch d v tr r, walk ch d v = (tr, r) ->
     (length tr <= size (headers ch))%nat /\ (r = None -> NoDup (map visited_key tr))) /\
  (forall ch l, path_from ch (head ch) l -> (size (headers ch) < length l)%nat ->
     walk ch NewestFirst no_abort = (take (size (headers ch)) l, Some corrupt_chain_error) /\
     walk ch OldestFirst no_abort = ([], Some corrupt_chain_error)).
Proof.
  split; [|split; [|split]].
  { intros ch l Hl Hn. unfold walk. rewrite <- Hn.
    rewrite (walk_from_linked _ _ _ _ Hl), (collect_linked _ _ _ _ Hl) by lia.
    rewrite visit_all_no_abort. split; [done|]. split; [by eapply linked_nodup|done]. }
  2: { apply walk_bounded_nodup. }
  2: { intros ch l Hp Hlt. unfold walk.
       rewrite (walk_from_overlong _ _ _ _ Hp Hlt), (collect_overlong _ _ _ _ Hp Hlt). done. }
  intros cs Hnd.
  destruct (build_linked cs Hnd) as [l [Hl Hm]].
  assert (Hsz : size (headers (build cs)) = length l).
  { rewrite build_size by done. rewrite <- (length_map visited_key l), Hm.
    by rewrite length_rev, length_map. }
  exists l. unfold walk. rewrite Hsz.
  rewrite (walk_from_linked _ _ _ _ Hl) by lia.
  rewrite (collect_linked _ _ _ _ Hl) by lia. rewrite visit_all_no_abort.
  repeat split; try done.
  - rewrite <- (length_map visited_key l), Hm. by rewrite length_rev, length_map.
  - rewrite Hm. apply NoDup_ListNoDup, NoDup_rev, NoDup_ListNoDup. done.
Qed.

Lemma walk_visits_each_header_once_witness :
  walk loop_chain NewestFirst no_abort = ([(1, loop_header, VOther "x")], Some corrupt_chain_error) /\
  walk loop_chain OldestFirst no_abort = ([], Some corrupt_chain_error) /\
  NoDup (map commit_key [(10, 20, DNAEntryType, 0, VBytes [Byte.x41]);
                         (11, 21, KeyEntryType, 1, VKey (mkKeyEntry "alice" 7));
                         (12, 22, "post", 2, VOther "hello")]) /\
  (exists nf,
     walk (build [(10, 20, DNAEntryType, 0, VBytes [Byte.x41]);
                  (11, 21, KeyEntryType, 1, VKey (mkKeyEntry "alice" 7));
                  (12, 22, "post", 2, VOther "hello")]) NewestFirst no_abort = (nf, None) /\
     length nf = size (headers (build [(10, 20, DNAEntryType, 0, VBytes [Byte.x41]);
                  (11, 21, KeyEntryType, 1, VKey (mkKeyEntry "alice" 7));
                  (12, 22, "post", 2, VOther "hello")])) /\ length nf = 3%nat /\
     NoDup (map visited_key nf) /\ map visited_key nf = [12; 11; 10] /\
     walk (build [(10, 20, DNAEntryType, 0, VBytes [Byte.x41]);
                  (11, 21, KeyEntryType, 1, VKey (mkKeyEntry "alice" 7));
                  (12, 22, "post", 2, VOther "hello")]) OldestFirst no_abort = (rev nf, None)).
Proof.
  assert (Hnd : NoDup (map commit_key [(10, 20, DNAEntryType, 0, VBytes [Byte.x41]);
                         (11, 21, KeyEntryType, 1, VKey (mkKeyEntry "alice" 7));
                         (12, 22, "post", 2, VOther "hello")])) by (simpl; apply NoDup_ListNoDup; repeat constructor; simpl; lia).
  destruct walk_visits_each_header_once as [_ [Hb [_ Hc]]].
  assert (Hp : path_from loop_chain (head loop_chain)
                 [(1, loop_header, VOther "x"); (1, loop_header, VOther "x")]).
  { repeat (apply path_cons; [reflexivity|reflexivity|]). apply path_nil. }
  destruct (Hc _ _ Hp ltac:(vm_compute; lia)) as [H1 H2].
  split; [rewrite H1; reflexivity|]. split; [exact H2|].
  split; [exact Hnd|]. exact (Hb _ Hnd).
Defined.

(** ** Genesis and activation in the library model *)

Lemma set_inst_same s i : inst s = Some i -> set_inst s (Some i) = s.
Proof. destruct s; simpl; by intros ->. Qed.

Lemma is_call_true c ok ev : is_call c ok ev = true -> ev = Called c ok.
Proof.
  destruct ev as [c' ok'| | | |]; simpl; try discriminate.
  intros Hb. apply andb_prop in Hb as [H1 H2]. apply bool_decide_eq_true in H1.
  apply Bool.eqb_prop in H2. by subst.
Qed.

Lemma genchain_sets_id s s' : GenChain s = (s', None) -> exists i x, inst s' = Some i /\ id i = Some x.
Proof.
  unfold GenChain, with_inst. destruct (inst s) as [i|]; [|discriminate].
  destruct (id i); simpl; [discriminate|]. intros H; inversion H; subst. by do 2 eexists.
Qed.

Lemma filter_none (f : Event -> bool) l :
  (forall ev, In ev l -> f ev = false) -> List.filter f l = [].
Proof.
  induction l as [|y l IH]; intros Hl; simpl; [done|].
  rewrite (Hl y (or_introl eq_refl)). apply IH. intros ev Hin. apply Hl. by right.
Qed.

(** Without a reset or removal, lifecycle operations keep an assigned
    [Id] and the committed chain, and no [GenChain] succeeds. *)
Lemma life_keeps_id os : forall s tr i x,
  inst s = Some i -> id i = Some x -> Forall (fun o => o <> OReset /\ o <> ORemove) os ->
  let '(s', tr') := run_life os s tr in
  exists i' new, inst s' = Some i' /\ id i' = Some x /\ chain i' = chain i /\
    tr' = tr ++ new /\ ~ In (Called CGenChain true) new.
Proof.
  induction os as [|o os IH]; intros s tr i x Hs Hx Hf; simpl.
  - exists i, []. rewrite app_nil_r. repeat split; try done. intros [].
  - inversion Hf as [|? ? [Hr Hd] Hf']; subst.
    destruct o; try congruence;
      unfold life_step, call_err, Clone_, GenDNAHashes, GenChain, Activate, with_inst;
      rewrite Hs; simpl; rewrite ?Hx; simpl;
      [| destruct (decide (dna i = [])); simpl | |].
    all: match goal with
         | |- context [run_life ?l ?s1 (?t0 ++ [?ev])] =>
             pose proof (IH s1 (t0 ++ [ev])) as HI;
             destruct (run_life l s1 (t0 ++ [ev])) as [s' tr']
         end.
    all: edestruct HI as [i' [new [H1 [H2 [H3 [H4 H5]]]]]];
      [first [exact Hs | reflexivity] | first [exact Hx | reflexivity | simpl; exact Hx] | exact Hf' |].
    all: match type of H4 with _ = (_ ++ [?ev]) ++ _ => exists i', (ev :: new) end;
      repeat split; try done;
      [ rewrite H4, <- app_assoc; reflexivity
      | intros [He|He]; [discriminate|done] ].
Qed.

Lemma life_step_event o s tr s1 tr1 r :
  life_step o (s, tr) = ((s1, tr1), r) ->
  exists ev, tr1 = tr ++ [ev] /\
    (is_call CGenChain true ev = false \/ exists i x, inst s1 = Some i /\ id i = Some x).
Proof.
  destruct o; unfold life_step, call_err;
    [ destruct (Clone_ _ _ _ s) as [s' r'] | destruct (GenDNAHashes s) as [s' r']
    | destruct (GenChain s) as [s' [e|]] eqn:G | destruct (Activate s) as [s' r']
    | destruct (Reset_ s) as [s' r'] | destruct (RemoveAll _ s) as [s' r'] ];
    intros Heq; inversion Heq; subst; eexists; (split; [reflexivity|]);
    try (left; reflexivity).
  right. by eapply genchain_sets_id.
Qed.

(** C2: on any instance whose [Id] is set, GenerateGenesis fails with
    [AlreadyInitializedError] and leaves the service (its [Id], headers
    and entries) unchanged; after a successful GenerateGenesis, Seed,
    Activate and GenerateGenesis keep the [Id] and the committed chain;
    in any sequence of lifecycle operations without a reset or removal,
    an assigned [Id] and the committed chain are kept, and at most one
    GenerateGenesis succeeds: the [Id] is assigned at most once. *)
Theorem genesis_second_call_rejected :
  (forall s i x, inst s = Some i -> id i = Some x ->
     GenChain s = (s, Some already_initialized_error)) /\
  (forall s s', GenChain s = (s', None) ->
     GenChain s' = (s', Some already_initialized_error) /\
     (exists i x, inst s' = Some i /\ id i = Some x /\
        forall s'', In s'' [fst (GenDNAHashes s'); fst (Activate s'); fst (GenChain s')] ->
          exists i'', inst s'' = Some i'' /\ id i'' = Some x /\ chain i'' = chain i)) /\
  (forall os s tr i x, inst s = Some i -> id i = Some x ->
     Forall (fun o => o <> OReset /\ o <> ORemove) os ->
     let '(s', tr') := run_life os s tr in
     exists i' new, inst s' = Some i' /\ id i' = Some x /\ chain i' = chain i /\
       tr' = tr ++ new /\ ~ In (Called CGenChain true) new) /\
  (forall os s tr, Forall (fun o => o <> OReset /\ o <> ORemove) os ->
     let '(_, tr') := run_life os s tr in
     exists new, tr' = tr ++ new /\ (length (List.filter (is_call CGenChain true) new) <= 1)%nat).
Proof.
  split; [|split; [|split]].
  - intros s i x Hs Hx. unfold GenChain, with_inst. rewrite Hs. simpl. rewrite Hx. simpl.
    by rewrite set_inst_same.
  - intros s s'.
    unfold GenChain at 1, with_inst. destruct (inst s) as [i|] eqn:Hi; [|discriminate].
    destruct (id i) as [x|] eqn:Hid; [discriminate|].
    simpl. intros Hs. inversion Hs; subst s'. clear Hs.
    set (i' := mkInst (name i) (dna i) (hashed i) (Some (content_hash (dna i))) Genesis
                      (append (chain i) (header_hash (mkHeader DNAEntryType 0 None None
                         (content_hash (dna i)))) (content_hash (dna i)) DNAEntryType 0
                         (VBytes (dna i)))).
    split.
    + unfold GenChain, with_inst. simpl. done.
    + exists i', (content_hash (dna i)). split; [done|]. split; [done|].
      intros s'' Hin. simpl in Hin.
      unfold GenDNAHashes, Activate, GenChain, with_inst in Hin. simpl in Hin.
      destruct (decide (dna i = [])) as [Hd|Hd];
        destruct Hin as [<-|[<-|[<-|[]]]]; simpl; eexists; (split; [reflexivity|]); done.
  - exact life_keeps_id.
  - induction os as [|o os IH]; intros s tr Hf; simpl.
    + exists []. rewrite app_nil_r. simpl. split; [done|lia].
    + inversion Hf as [|? ? Ho Hf']; subst.
      destruct (life_step o (s, tr)) as [[s1 tr1] r] eqn:E.
      destruct (life_step_event _ _ _ _ _ _ E) as [ev [-> [Hev|[i [x [Hs Hx]]]]]].
      * pose proof (IH s1 (tr ++ [ev]) Hf') as HI.
        destruct (run_life os s1 (tr ++ [ev])) as [s' tr'].
        destruct HI as [new [-> Hn]]. exists (ev :: new).
        rewrite <- app_assoc. split; [done|]. simpl. by rewrite Hev.
      * pose proof (life_keeps_id os s1 (tr ++ [ev]) i x Hs Hx Hf') as HI.
        destruct (run_life os s1 (tr ++ [ev])) as [s' tr'].
        destruct HI as [i' [new [_ [_ [_ [-> Hn]]]]]]. exists (ev :: new).
        rewrite <- app_assoc. split; [done|]. simpl.
        rewrite filter_none; [destruct (is_call CGenChain true ev); simpl; lia|].
        intros ev' Hin. destruct (is_call CGenChain true ev') eqn:Ec; [|done].
        apply is_call_true in Ec. subst. contradiction.
Qed.

Lemma genesis_second_call_rejected_witness :
  GenChain alice_genesis = (alice_genesis, Some already_initialized_error) /\
  snd (run_life [OClone; OSeed; OGenesis; OActivate; OGenesis; OSeed; OGenesis]
                (mkService [Byte.x41] None) []) =
    [Called CClone true; Called CGenDNAHashes true; Called CGenChain true;
     Called CActivate true; Called CGenChain false; Called CGenDNAHashes true;
     Called CGenChain false] /\
  (let '(_, tr') := run_life [OClone; OSeed; OGenesis; OActivate; OGenesis; OSeed; OGenesis]
                             (mkService [Byte.x41] None) [] in
   exists new, tr' = [] ++ new /\ (length (List.filter (is_call CGenChain true) new) <= 1)%nat).
Proof.
  destruct genesis_second_call_rejected as [H1 [_ [_ H4]]].
  split; [exact (H1 alice_genesis _ _ eq_refl eq_refl)|]. split; [reflexivity|].
  exact (H4 [OClone; OSeed; OGenesis; OActivate; OGenesis; OSeed; OGenesis]
            (mkService [Byte.x41] None) [] ltac:(repeat constructor; discriminate)).
Defined.

(** ** Trace monitors *)

Lemma preceded_spec target req seen tr :
  preceded target req seen tr = true ->
  forall pre ev post, tr = pre ++ ev :: post -> target ev = true ->
  seen = true \/ exists ev', In ev' pre /\ req ev' = true.
Proof.
  intros Hp pre. revert seen tr Hp. induction pre as [|x pre IH]; intros seen tr Hp ev post -> Ht.
  - simpl in Hp. rewrite Ht in Hp. simpl in Hp. apply andb_prop in Hp as [Hs _]. by left.
  - simpl in Hp. apply andb_prop in Hp as [_ Hp].
    destruct (IH _ _ Hp ev post eq_refl Ht) as [Hs|[ev' [Hin Hr]]].
    + apply orb_prop in Hs as [Hs|Hs]; [by left|]. right. exists x. split; [by left|done].
    + right. exists ev'. split; [by right|done].
Qed.

Lemma preceded_app target req seen l1 l2 :
  preceded target req seen (l1 ++ l2) =
  preceded target req seen l1 && preceded target req (seen || existsb req l1) l2.
Proof.
  revert seen. induction l1 as [|x l1 IH]; intros seen; simpl.
  - by rewrite orb_false_r.
  - rewrite IH, orb_assoc. by rewrite andb_assoc.
Qed.

Lemma preceded_none target req seen l :
  Forall (fun ev => target ev = false) l -> preceded target req seen l = true.
Proof.
  intros Hl. revert seen. induction Hl as [|x l Hx Hl IH]; intros seen; simpl; [done|].
  rewrite Hx, IH. done.
Qed.

Section Generic.
Context {S : Type} `{HoloLib S}.

(** [dump_print] only prints; it returns nil, or panics right after
    printing a [Panicked] event. *)
Lemma dump_print_shape links vs (s : S) tr :
  exists evs, Forall dump_event evs /\
    ((dump_print links vs (s, tr) = ((s, tr ++ evs), inr tt) /\ ~ In Panicked evs) \/
     (dump_print links vs (s, tr) = ((s, tr ++ evs), inl go_panic) /\ In Panicked evs)).
Proof.
  revert tr. induction vs as [|[k e] vs IH]; intros tr; simpl.
  - exists []. rewrite app_nil_r. split; [constructor|]. left. split; [done|intros []].
  - set (hdr := default zero_header (links !! k)).
    destruct (render_entry (Type_ hdr) e) as [r|]; cbv [bind emit throw]; simpl.
    + set (p := Printed (mkDump (Type_ hdr) k (Time hdr) (HeaderLink hdr) (TypeLink hdr)
                                (EntryLink hdr) (Some r))).
      destruct (IH (tr ++ [p])) as [evs [Hf [[Heq Hp]|[Heq Hp]]]];
        exists (p :: evs); rewrite Heq, <- app_assoc; (split; [constructor; [exact I|done]|]).
      * left. split; [done|]. intros [Hc|Hc]; [discriminate|done].
      * right. split; [done|]. by right.
    + exists [Printed (mkDump (Type_ hdr) k (Time hdr) (HeaderLink hdr) (TypeLink hdr)
                              (EntryLink hdr) None); Panicked].
      rewrite <- app_assoc. split; [repeat constructor|]. right.
      split; [reflexivity|]. simpl. tauto.
Qed.

Lemma dump_events_none target :
  (forall ev, dump_event ev -> target ev = false) ->
  forall evs, Forall dump_event evs -> Forall (fun ev => target ev = false) evs.
Proof. intros Ht evs Hf. eapply Forall_impl; eauto. Qed.

Ltac lib_destruct :=
  match goal with
  | |- context [dump_print ?L ?V (?s, ?tr)] =>
      let Heq := fresh "Heq" in
      destruct (dump_print_shape L V s tr) as [? [? [[Heq ?]|[Heq ?]]]]; rewrite Heq
  | |- context [negb (initialized ?c)] => destruct (initialized c) eqn:?
  | |- context [force ?c] => destruct (force c) eqn:?
  | |- context [String.eqb ?a ?b] => destruct (String.eqb a b) eqn:?
  | |- context [Nat.eqb ?a ?b] => destruct (Nat.eqb a b) eqn:?
  | |- context [svc_Load ?n ?s] => destruct (svc_Load n s) eqn:?
  | |- context [svc_Clone ?a ?b ?c ?s] => destruct (svc_Clone a b c s) as [? [?|]] eqn:?
  | |- context [os_RemoveAll ?p ?s] => destruct (os_RemoveAll p s) as [? [?|]] eqn:?
  | |- context [h_GenDNAHashes ?s] => destruct (h_GenDNAHashes s) as [? [?|]] eqn:?
  | |- context [h_EncodeDNA ?s] => destruct (h_EncodeDNA s) eqn:?
  | |- context [h_Sum ?b] => destruct (h_Sum b) eqn:?
  | |- context [h_Activate ?s] => destruct (h_Activate s) as [? [?|]] eqn:?
  | |- context [h_GenChain ?s] => destruct (h_GenChain s) as [? [?|]] eqn:?
  | |- context [h_ID ?s] => destruct (h_ID s) eqn:?
  | |- context [h_Reset ?s] => destruct (h_Reset s) as [? [?|]] eqn:?
  | |- context [h_Walk ?s ?b] => destruct (h_Walk s b) as [? ?] eqn:?
  end; simpl.

Ltac sym_exec :=
  unfold events_of, result_of, run, action, clone_action, join_action, seed_action,
    gen_chain_action, dump_action, test_action, serve_action, reset_action,
    getHolochain, checkForName, genChain, serve_port;
  cbv [bind ret throw call_err call_val get_state emit lift_err]; simpl;
  repeat lib_destruct.

Lemma dump_events_false (f : Event -> bool) evs :
  Forall dump_event evs -> f Panicked = false -> (forall r, f (Printed r) = false) ->
  Forall (fun ev => f ev = false) evs.
Proof.
  intros Hf Hp Hr. eapply Forall_impl; [exact Hf|]. intros [] Hd; simpl in Hd; done.
Qed.

Lemma existsb_all_false (f : Event -> bool) l :
  Forall (fun ev => f ev = false) l -> existsb f l = false.
Proof. induction 1 as [|x l Hx Hl IH]; simpl; [done|]. by rewrite Hx, IH. Qed.

(** Closes a goal about the events after [dump_print] output. *)
Ltac close_dump :=
  match goal with
  | Hd : Forall dump_event ?evs |- _ =>
      first
        [ apply preceded_none, dump_events_false; [exact Hd|reflexivity|intros; reflexivity]
        | rewrite (existsb_all_false _ evs) by
            (apply dump_events_false; [exact Hd|reflexivity|intros; reflexivity]);
          simpl; try reflexivity ]
  end.

Lemma genchain_after_hashes cmd c (s : S) :
  preceded (is_call_any CGenChain) (is_call CGenDNAHashes true) false (events_of cmd c s) = true.
Proof. destruct cmd; sym_exec; try reflexivity; close_dump. Qed.

Lemma spawn_after_activate cmd c (s : S) :
  preceded is_spawn (is_call CActivate true) false (events_of cmd c s) = true.
Proof. destruct cmd; sym_exec; try reflexivity; close_dump. Qed.

Lemma no_spawn_after_failed_activate cmd c (s : S) :
  existsb (is_call CActivate false) (events_of cmd c s) &&
  existsb is_spawn (events_of cmd c s) = false.
Proof. destruct cmd; sym_exec; try reflexivity; close_dump. Qed.

Lemma reset_only_in cmd c (s : S) :
  existsb (is_call_any CReset) (events_of cmd c s) = true ->
  cmd = CmdReset \/ (cmd = CmdTest /\ force c = true).
Proof.
  destruct cmd; sym_exec; try discriminate; try (intros; auto; fail).
  all: try (intros; rewrite (existsb_all_false _ _) in * by
              (apply dump_events_false; [eassumption|reflexivity|intros; reflexivity]);
            discriminate).
Qed.

Lemma preceded_in target req tr pre ev post :
  preceded target req false tr = true -> tr = pre ++ ev :: post -> target ev = true ->
  exists ev', In ev' pre /\ req ev' = true.
Proof.
  intros Hp Heq Ht. destruct (preceded_spec _ _ _ _ Hp _ _ _ Heq Ht) as [Hf|H']; [discriminate|done].
Qed.

(** C5: in every run of an [hc] command, whatever the library does, the
    [HandlePutReqs] and [Gossip] goroutines are started only after a
    successful [Activate] earlier in the same run, and a run in which
    [Activate] failed starts neither. *)
Theorem network_tasks_after_activate cmd c (s : S) :
  (forall pre t post, events_of cmd c s = pre ++ Spawned t :: post ->
     In (Called CActivate true) pre) /\
  (In (Called CActivate false) (events_of cmd c s) ->
     forall t, ~ In (Spawned t) (events_of cmd c s)).
Proof.
  split.
  - intros pre t post Heq.
    destruct (preceded_in _ _ _ _ _ _ (spawn_after_activate cmd c s) Heq eq_refl)
      as [ev' [Hin Hr]].
    apply is_call_true in Hr. by subst.
  - intros Hf t Hs. pose proof (no_spawn_after_failed_activate cmd c s) as Hn.
    apply andb_false_iff in Hn as [Hn|Hn].
    + assert (E : existsb (is_call CActivate false) (events_of cmd c s) = true).
      { apply existsb_exists. exists (Called CActivate false). split; [done|].
        reflexivity. }
      congruence.
    + assert (E : existsb is_spawn (events_of cmd c s) = true).
      { apply existsb_exists. by exists (Spawned t). }
      congruence.
Qed.

(** C6: in every run of an [hc] command, whatever the library does, a
    call to [GenChain] (successful or not) is preceded in the same run,
    on the same loaded holochain, by a successful [GenDNAHashes]. *)
Theorem genchain_only_after_dna_hashed cmd c (s : S) :
  forall pre ok post, events_of cmd c s = pre ++ Called CGenChain ok :: post ->
  In (Called CGenDNAHashes true) pre.
Proof.
  intros pre ok post Heq.
  assert (Ht : is_call_any CGenChain (Called CGenChain ok) = true)
    by (simpl; destruct ok; reflexivity).
  destruct (preceded_in _ _ _ _ _ _ (genchain_after_hashes cmd c s) Heq Ht) as [ev' [Hin Hr]].
  apply is_call_true in Hr. by subst.
Qed.

(** C7 (as the code has it): [Reset] is called only by the [reset]
    command and by the [test] command when [--force] is set. The
    [reset] command asks for no confirmation: once the chain is loaded
    it calls [Reset] and returns its result, and its run does not read
    [--force]. A forced [test] calls [Reset] right after loading. *)
Theorem reset_only_by_reset_or_forced_test :
  (forall cmd c (s : S) ok, In (Called CReset ok) (events_of cmd c s) ->
     cmd = CmdReset \/ (cmd = CmdTest /\ force c = true)) /\
  (forall c (s : S), initialized c = true -> arg c 0 <> "" -> svc_Load (arg c 0) s = None ->
     run CmdReset c s [] =
       let '(s', r) := h_Reset s in (s', [Called CLoad true; Called CReset (is_ok r)], r)) /\
  (forall c (s : S), force c = true -> initialized c = true -> arg c 0 <> "" ->
     svc_Load (arg c 0) s = None ->
     exists rest, events_of CmdTest c s =
       [Called CLoad true; Called CReset (is_ok (snd (h_Reset s)))] ++ rest).
Proof.
  split; [|split].
  - intros cmd c s ok Hin. apply reset_only_in with (s := s). apply existsb_exists.
    exists (Called CReset ok). split; [done|]. reflexivity.
  - intros c s Hi Ha Hl. apply String.eqb_neq in Ha.
    unfold run, action, reset_action, getHolochain, checkForName;
      cbv [bind ret throw call_err]; simpl.
    rewrite Hi; simpl. rewrite Ha; simpl. rewrite Hl; simpl.
    by destruct (h_Reset s) as [s' [e|]].
  - intros c s Hf Hi Ha Hl. apply String.eqb_neq in Ha.
    unfold events_of, run, action, test_action, getHolochain, checkForName;
      cbv [bind ret throw call_err get_state emit]; simpl.
    rewrite Hi; simpl. rewrite Ha; simpl. rewrite Hl; simpl. rewrite Hf; simpl.
    destruct (h_Reset s) as [s1 [e|]]; simpl; [eexists; reflexivity|].
    destruct (h_Activate s1) as [s2 [e|]]; simpl; eexists; reflexivity.
Qed.

(** C9: a run of [test] in which [Activate] succeeded always returns a
    non-nil error, built with [errors.New] from the concatenated texts of
    the failed tests; with no failure its text is empty. *)
Theorem test_returns_error_after_activate c (s : S) :
  let '(s', tr, r) := run CmdTest c s [] in
  In (Called CActivate true) tr ->
  r = Some (errors_New (concat_errors (h_Test s'))) /\
  (h_Test s' = [] -> r = Some (errors_New "")).
Proof.
  sym_exec; simpl; intros Hin;
    repeat (destruct Hin as [Hin|Hin]; [try discriminate|]); try contradiction;
    split; try done; intros ->; done.
Qed.

(** C10: when [serve] serves, it serves on port "3141" if it was given
    exactly one argument, and on its second argument, verbatim, if it
    has one. *)
Theorem serve_port_default c (s : S) p :
  In (Served p) (events_of CmdServe c s) ->
  (length (args c) = 1%nat -> p = "3141") /\ (forall a, args c !! 1%nat = Some a -> p = a).
Proof.
  sym_exec; simpl; intros Hin;
    repeat (destruct Hin as [Hin|Hin]; [try discriminate|]); try contradiction.
  all: injection Hin as <-.
  all: match goal with
       | E : Nat.eqb _ _ = true |- _ => apply Nat.eqb_eq in E
       | E : Nat.eqb _ _ = false |- _ => apply Nat.eqb_neq in E
       end.
  - split; [done|]. intros a Ha. apply lookup_lt_Some in Ha. lia.
  - split; [lia|]. intros a Ha. unfold arg. by rewrite Ha.
Qed.


(** ** Further properties of the command code *)

Context `{HoloCli S}.

Ltac x_exec :=
  unfold xrun, dev_action, call_action, bs_action, init_action, status_action, app_action,
    lift, getHolochain, checkForName;
  cbv [xbind xret xthrow xemit xget x_call x_val bind ret throw call_err call_val]; simpl.

(** Every command that names a chain checks that [hc init] was run and
    that a name was given before anything else, and fails with no
    library call and no state change otherwise; [clone] and [join],
    which take a source path first, are the exceptions. *)
Theorem commands_need_init_and_name cmd c (s : S) os :
  (initialized c = false ->
     (cmd <> CmdClone -> cmd <> CmdJoin -> run cmd c s [] = (s, [], Some uninitialized_err)) /\
     xrun (dev_action c) s = (s, [], Some uninitialized_err) /\
     xrun (call_action os c) s = (s, [], Some uninitialized_err) /\
     xrun (bs_action c) s = (s, [], Some uninitialized_err)) /\
  (initialized c = true -> arg c 0 = "" ->
     (cmd <> CmdClone -> cmd <> CmdJoin ->
        run cmd c s [] =
          (s, [], Some (errors_New ("missing required holochain-name argument to " ++ cmd_label cmd)))) /\
     xrun (dev_action c) s = (s, [], Some (errors_New "missing required holochain-name argument to dev")) /\
     xrun (call_action os c) s = (s, [], Some (errors_New "missing required holochain-name argument to call")) /\
     xrun (bs_action c) s = (s, [], Some (errors_New "missing required holochain-name argument to bs"))).
Proof.
  split.
  - intros Hi. split; [|split; [|split]].
    + intros H1 H2. destruct cmd; try congruence;
        unfold run, action, seed_action, gen_chain_action, dump_action, test_action,
          serve_action, reset_action, getHolochain, checkForName;
        cbv [bind ret throw]; rewrite Hi; reflexivity.
    + x_exec. by rewrite Hi.
    + x_exec. by rewrite Hi.
    + x_exec. by rewrite Hi.
  - intros Hi Ha. split; [|split; [|split]].
    + intros H1 H2. destruct cmd; try congruence;
        unfold run, action, seed_action, gen_chain_action, dump_action, test_action,
          serve_action, reset_action, getHolochain, checkForName;
        cbv [bind ret throw]; rewrite Hi, Ha; reflexivity.
    + x_exec. by rewrite Hi, Ha.
    + x_exec. by rewrite Hi, Ha.
    + x_exec. by rewrite Hi, Ha.
Qed.


(** [clone] and [join] check their two arguments before any library
    call, and neither looks at whether [hc init] was run. *)
Theorem clone_join_check_args cmd c (s : S) :
  cmd = CmdClone \/ cmd = CmdJoin ->
  (arg c 0 = "" ->
     run cmd c s [] = (s, [], Some (errors_New (cmd_label cmd ++ ": missing required source path argument")))) /\
  (arg c 0 <> "" -> length (args c) = 1%nat ->
     run cmd c s [] = (s, [], Some (errors_New (cmd_label cmd ++ ": missing required holochain-name argument")))) /\
  (forall b, run cmd (mkCtx (args c) (force c) b (root c)) s [] = run cmd c s []).
Proof.
  intros Hc. split; [|split].
  - intros Ha. destruct Hc as [->| ->]; unfold run, action, clone_action, join_action;
      rewrite Ha; reflexivity.
  - intros Ha Hl. apply String.eqb_neq in Ha.
    destruct Hc as [->| ->]; unfold run, action, clone_action, join_action;
      rewrite Ha, Hl; reflexivity.
  - intros b. destruct Hc as [->| ->]; reflexivity.
Qed.

(** [clone]: with [--force], [os.RemoveAll(root/name)] runs first and a
    failure stops the command before [Clone]; without it nothing is
    removed. [Clone] is then called with the source path, [root/name]
    and the literal [true]. *)
Theorem clone_removes_only_with_force c (s : S) :
  arg c 0 <> "" -> length (args c) <> 1%nat ->
  run CmdClone c s [] =
    let dest := (root c ++ "/" ++ arg c 1)%string in
    if force c then
      match os_RemoveAll dest s with
      | (s1, Some e) => (s1, [Called CRemoveAll false], Some e)
      | (s1, None) =>
          let '(s2, r) := svc_Clone (arg c 0) dest true s1 in
          (s2, [Called CRemoveAll true; Called CClone (is_ok r)], r)
      end
    else let '(s2, r) := svc_Clone (arg c 0) dest true s in (s2, [Called CClone (is_ok r)], r).
Proof.
  intros Ha Hl. apply String.eqb_neq in Ha. apply Nat.eqb_neq in Hl.
  unfold run, action, clone_action. rewrite Ha, Hl.
  cbv [bind ret throw call_err]. simpl.
  destruct (force c).
  - destruct (os_RemoveAll _ s) as [s1 [e|]]; simpl; [done|].
    by destruct (svc_Clone _ _ _ s1) as [s2 [e'|]].
  - by destruct (svc_Clone _ _ _ s) as [s2 [e'|]].
Qed.

(** [join] calls [Clone] with the source path, [root/name] and the
    literal [false]; only if that returns nil does it run [genChain] on
    [name]. It never calls [os.RemoveAll]. *)
Theorem join_clones_then_generates c (s : S) :
  arg c 0 <> "" -> length (args c) <> 1%nat ->
  run CmdJoin c s [] =
    match svc_Clone (arg c 0) (root c ++ "/" ++ arg c 1)%string false s with
    | (s1, Some e) => (s1, [Called CClone false], Some e)
    | (s1, None) =>
        match genChain (arg c 1) (s1, [Called CClone true]) with
        | ((s2, tr), inl e) => (s2, tr, Some e)
        | ((s2, tr), inr _) => (s2, tr, None)
        end
    end /\
  (forall ok, ~ In (Called CRemoveAll ok) (events_of CmdJoin c s)).
Proof.
  intros Ha Hl. split.
  - apply String.eqb_neq in Ha. apply Nat.eqb_neq in Hl.
    unfold run, action, join_action. rewrite Ha, Hl.
    cbv [bind ret throw call_err]. simpl.
    by destruct (svc_Clone _ _ _ s) as [s1 [e|]].
  - intros ok. sym_exec; simpl; intuition discriminate.
Qed.

(** [seed] only loads the chain, hashes its DNA, encodes it and sums
    it: it never activates, generates genesis, resets, removes or starts
    a goroutine. *)
Theorem seed_never_starts_chain c (s : S) :
  Forall (fun ev => exists c' ok, ev = Called c' ok /\ In c' [CLoad; CGenDNAHashes; CEncodeDNA; CSum])
         (events_of CmdSeed c s).
Proof.
  sym_exec; repeat constructor; do 2 eexists; (split; [reflexivity|simpl; tauto]).
Qed.

(** [test] never returns a nil error. *)
Theorem test_never_returns_nil c (s : S) : result_of CmdTest c s <> None.
Proof. sym_exec; discriminate. Qed.

(** Once the chain is loaded and [h.ID()] succeeds, what [dump] does
    does not depend on the error [h.Walk] returns, which is discarded:
    after the [Walk] call it only prints records, and it returns nil
    unless a type assertion panics. *)
Theorem dump_ignores_walk_error c (s : S) x :
  initialized c = true -> arg c 0 <> "" -> svc_Load (arg c 0) s = None -> h_ID s = inr x ->
  (~ In Panicked (events_of CmdDump c s) -> result_of CmdDump c s = None) /\
  (In Panicked (events_of CmdDump c s) -> result_of CmdDump c s = Some go_panic) /\
  exists evs, events_of CmdDump c s =
    [Called CLoad true; Called CID true; Called CWalk (is_ok (snd (h_Walk s true)))] ++ evs /\
    Forall dump_event evs.
Proof.
  intros Hi Ha Hl Hx. apply String.eqb_neq in Ha.
  destruct (h_Walk s true) as [vs werr] eqn:W.
  destruct (dump_print_shape (dump_links vs) (map (fun '(k, _, e) => (k, e)) vs) s
              [Called CLoad true; Called CID true; Called CWalk (is_ok werr)])
    as [evs [Hf [[Hd Hp]|[Hd Hp]]]];
  unfold events_of, result_of, run, action, dump_action, getHolochain, checkForName;
    cbv [bind ret throw call_err call_val get_state emit lift_err]; simpl;
  rewrite Hi; simpl; rewrite Ha; simpl; rewrite Hl; simpl; rewrite Hx; simpl;
  rewrite W; simpl; rewrite Hd; simpl.
  - split; [done|]. split; [|by exists evs].
    intros Hin. exfalso. apply Hp. simpl in Hin.
    repeat (destruct Hin as [Hin|Hin]; [discriminate|]). done.
  - split; [|split; [done|by exists evs]].
    intros Hn. exfalso. apply Hn. simpl. by right; right; right.
Qed.

(** Only [serve] starts [Gossip] or serves; [HandlePutReqs] is started
    only by [serve] and by the [genChain] of [join] and [gen chain]. *)
Theorem only_serve_gossips_and_serves cmd c (s : S) :
  (existsb (fun ev => match ev with Spawned TGossip | Served _ => true | _ => false end)
           (events_of cmd c s) = true -> cmd = CmdServe) /\
  (existsb (fun ev => match ev with Spawned THandlePutReqs => true | _ => false end)
           (events_of cmd c s) = true -> cmd = CmdServe \/ cmd = CmdJoin \/ cmd = CmdGenChain).
Proof.
  split; destruct cmd; sym_exec; try discriminate; try (intros; auto; fail).
  all: try (intros; rewrite (existsb_all_false _ _) in * by
              (apply dump_events_false; [eassumption|reflexivity|intros; reflexivity]);
            discriminate).
Qed.


(** [dev] with two arguments rejects a format other than json, yaml or
    toml before any library call, so [--force] removes nothing then. *)
Theorem dev_rejects_bad_format c (s : S) :
  initialized c = true -> arg c 0 <> "" -> length (args c) = 2%nat -> valid_format (arg c 1) = false ->
  xrun (dev_action c) s = (s, [], Some (errors_New "gen dev: format must be one of yaml,toml,json")).
Proof.
  intros Hi Ha Hl Hv. apply String.eqb_neq in Ha. x_exec.
  rewrite Hi; simpl. rewrite Ha; simpl. rewrite Hl; simpl. by rewrite Hv.
Qed.

(** [dev] otherwise generates in [root/name] with the format given as
    second argument when there are exactly two arguments, and "toml" in
    every other case (a third argument makes it ignore the second);
    [--force] first removes [root/name], and a failed removal stops it. *)
Theorem dev_generates_with_format c (s : S) :
  initialized c = true -> arg c 0 <> "" ->
  (length (args c) = 2%nat -> valid_format (arg c 1) = true) ->
  xrun (dev_action c) s =
    let format := if Nat.eqb (length (args c)) 2 then arg c 1 else "toml" in
    let dest := (root c ++ "/" ++ arg c 0)%string in
    if force c then
      match os_RemoveAll dest s with
      | (s1, Some e) => (s1, [XBase (Called CRemoveAll false)], Some e)
      | (s1, None) =>
          let '(s2, r) := svc_GenDev dest format s1 in
          (s2, [XBase (Called CRemoveAll true); XCalled XGenDev (is_ok r)], r)
      end
    else let '(s2, r) := svc_GenDev dest format s in (s2, [XCalled XGenDev (is_ok r)], r).
Proof.
  intros Hi Ha Hv. apply String.eqb_neq in Ha. x_exec.
  rewrite Hi; simpl. rewrite Ha; simpl.
  destruct (Nat.eqb (length (args c)) 2) eqn:E.
  - rewrite Hv by (by apply Nat.eqb_eq). simpl.
    destruct (force c); simpl.
    + destruct (os_RemoveAll _ s) as [s1 [e|]]; simpl; [done|].
      by destruct (svc_GenDev _ _ s1) as [s2 [e'|]].
    + by destruct (svc_GenDev _ _ s) as [s2 [e'|]].
  - destruct (force c); simpl.
    + destruct (os_RemoveAll _ s) as [s1 [e|]]; simpl; [done|].
      by destruct (svc_GenDev _ _ s1) as [s2 [e'|]].
    + by destruct (svc_GenDev _ _ s) as [s2 [e'|]].
Qed.

Lemma chain_lines_fold (l : list (string * (GoError + Hash))) (s : S) tr :
  fold_right (fun '(k, r) m => let! _ := xemit (XLine (chain_line k r)) in m) (xret tt) l (s, tr)
  = ((s, tr ++ map XLine (map (fun '(k, r) => chain_line k r) l)), inr tt).
Proof.
  revert tr. induction l as [|[k r] l IH]; intros tr; simpl.
  - by rewrite app_nil_r.
  - cbv [xbind xemit]. rewrite IH. by rewrite <- app_assoc.
Qed.

Lemma listChains_returns_nil enum (s : S) tr :
  exists tr', listChains enum (s, tr) = ((s, tr ++ tr'), inr tt).
Proof.
  unfold listChains. cbv [xbind xget xemit]. destruct (svc_ConfiguredChains s) as [chains cerr].
  simpl. destruct (Nat.ltb 0 (size chains)).
  - rewrite chain_lines_fold. eexists. by rewrite <- !app_assoc.
  - eexists. by rewrite <- app_assoc.
Qed.

(** [listChains], whatever order the runtime ranges over the map in:
    it ignores the error of [ConfiguredChains]; with no chain it prints
    "no installed chains"; otherwise a heading and one line per
    configured chain, each exactly once, with its id or, when its
    [ID()] fails for any reason, "<not-started>". *)
Theorem listChains_each_chain_once enum (s : S) :
  (forall m, enum m ≡ₚ map_to_list m) ->
  let '(chains, cerr) := svc_ConfiguredChains s in
  exists lines,
    xrun (listChains enum) s = (s, XCalled XConfiguredChains (is_ok cerr) :: map XLine lines, None) /\
    (chains = ∅ -> lines = ["no installed chains"]) /\
    (chains <> ∅ -> exists body, lines = "installed holochains: " :: body /\
        body ≡ₚ map (fun '(k, r) => chain_line k r) (map_to_list chains)).
Proof.
  intros Henum. unfold xrun, listChains. cbv [xbind xget xemit].
  destruct (svc_ConfiguredChains s) as [chains cerr]. simpl.
  destruct (Nat.ltb 0 (size chains)) eqn:E.
  - rewrite chain_lines_fold. simpl.
    exists ("installed holochains: " :: map (fun '(k, r) => chain_line k r) (enum chains)).
    split; [done|]. split.
    + intros ->. rewrite map_size_empty in E. discriminate.
    + intros _. eexists. split; [reflexivity|]. apply Permutation_map, Henum.
  - exists ["no installed chains"]. split; [done|]. split; [done|].
    intros Hne. apply Nat.ltb_ge in E. exfalso. apply Hne.
    apply map_size_empty_iff. lia.
Qed.

(** [status] fails with the [uninitialized] error, listing nothing,
    when [hc init] was not run, and otherwise lists the chains and
    returns nil; [hc] with no command shows the help instead of failing,
    and lists the chains once initialized. *)
Theorem status_and_default_action enum c (s : S) :
  (initialized c = false ->
     xrun (status_action enum c) s = (s, [], Some uninitialized_err) /\
     xrun (app_action enum c) s = (s, [XHelp], None)) /\
  (initialized c = true ->
     xrun (status_action enum c) s = xrun (listChains enum) s /\
     xrun (app_action enum c) s = xrun (listChains enum) s /\
     snd (xrun (status_action enum c) s) = None).
Proof.
  split.
  - intros Hi. unfold xrun, status_action, app_action. rewrite Hi. done.
  - intros Hi. unfold xrun, status_action, app_action. rewrite Hi. simpl.
    destruct (listChains_returns_nil enum s []) as [tr' Ht].
    cbv [xbind xret]. rewrite Ht. done.
Qed.

(** [call] indexes [os.Args] directly: with fewer than five process
    arguments it panics (index out of range) right after loading the
    chain, without calling [h.Call]. *)
Theorem call_short_os_args_panics os c (s : S) :
  (length os < 5)%nat -> initialized c = true -> arg c 0 <> "" -> svc_Load (arg c 0) s = None ->
  fst (xrun (call_action os c) s) = (s, [XBase (Called CLoad true); XIndexPanic]).
Proof.
  intros Hlen Hi Ha Hl. apply String.eqb_neq in Ha.
  assert (H4 : os !! 4%nat = None) by (apply lookup_ge_None_2; lia).
  x_exec. rewrite Hi; simpl. rewrite Ha; simpl. rewrite Hl; simpl. rewrite H4.
  by destruct (os !! 3%nat).
Qed.

(** Otherwise [call] prints and calls [h.Call] with [os.Args[3]] as the
    zome, [os.Args[4]] as the function and the rest of [os.Args] joined
    by spaces as the argument, whatever [c.Args()] holds; it prints the
    result, or returns the error. *)
Theorem call_passes_os_args os c (s : S) zome fn :
  os !! 3%nat = Some zome -> os !! 4%nat = Some fn ->
  initialized c = true -> arg c 0 <> "" -> svc_Load (arg c 0) s = None ->
  xrun (call_action os c) s =
    let params := strings_Join (drop 5 os) " " in
    let '(s', r) := h_Call zome fn params s in
    (s', [XBase (Called CLoad true);
          XLine ("calling " ++ fn ++ " on zome " ++ zome ++ " with params [" ++ params ++ "]")%string;
          XCalled XCallFn (if r then false else true)]
         ++ match r with inl _ => [] | inr v => [XLine v] end,
     match r with inl e => Some e | inr _ => None end).
Proof.
  intros H3 H4 Hi Ha Hl. apply String.eqb_neq in Ha.
  x_exec. rewrite Hi; simpl. rewrite Ha; simpl. rewrite Hl; simpl. rewrite H3, H4. simpl.
  by destruct (h_Call zome fn _ s) as [s' [e|v]].
Qed.

(** In [join] and [gen chain], [GenChain] is called at most once, and
    only after a successful [Activate]. *)
Lemma genchain_after_activate cmd c (s : S) :
  cmd = CmdJoin \/ cmd = CmdGenChain ->
  preceded (is_call_any CGenChain) (is_call CActivate true) false (events_of cmd c s) = true /\
  (length (List.filter (is_call_any CGenChain) (events_of cmd c s)) <= 1)%nat.
Proof. intros [-> | ->]; sym_exec; split; try reflexivity; simpl; lia. Qed.

End Generic.

Lemma filter_length_pos {A} (f : A -> bool) l x :
  In x l -> f x = true -> (0 < length (List.filter f l))%nat.
Proof.
  intros Hin Hf. assert (H : In x (List.filter f l)) by (apply filter_In; auto).
  destruct (List.filter f l); [contradiction|simpl; lia].
Qed.

(** C1 (as the code has it): the specified [Activate] fails with
    [NotSeededError] on an instance whose [Id] is unset and leaves the
    service unchanged. But [genChain], run by [join] and [gen chain],
    calls [Activate] before [GenChain]: whatever the library, in those
    commands a call to [GenChain] comes after a successful [Activate]
    and after no successful [GenChain]. So with the specified
    [Activate], [gen chain] on a chain with no [Id] stops at [Activate]
    with [NotSeededError] and never generates genesis. *)
Theorem genchain_activates_before_genesis :
  (forall s i, inst s = Some i -> id i = None -> Activate s = (s, Some not_seeded_error)) /\
  (forall (S : Type) (L : HoloLib S) cmd c (s : S) pre ok post,
     cmd = CmdJoin \/ cmd = CmdGenChain ->
     @events_of S L cmd c s = pre ++ Called CGenChain ok :: post ->
     In (Called CActivate true) pre /\ ~ In (Called CGenChain true) pre) /\
  (forall c s i, initialized c = true -> arg c 0 <> "" -> inst s = Some i -> id i = None ->
     dna i <> [] ->
     events_of CmdGenChain c s = [Called CLoad true; Called CGenDNAHashes true; Called CActivate false] /\
     result_of CmdGenChain c s = Some not_seeded_error).
Proof.
  split; [|split].
  - intros s i Hs Hid. unfold Activate, with_inst. rewrite Hs. simpl. rewrite Hid. simpl.
    by rewrite set_inst_same.
  - intros S L cmd c s pre ok post Hc Heq.
    destruct (genchain_after_activate cmd c s Hc) as [Hp Hn]. split.
    + destruct (preceded_in _ _ _ _ _ _ Hp Heq) as [ev [Hin Hr]]; [simpl; by destruct ok|].
      apply is_call_true in Hr. by subst.
    + intros Hin. rewrite Heq, List.filter_app, length_app in Hn. simpl in Hn.
      pose proof (filter_length_pos (is_call_any CGenChain) pre _ Hin eq_refl). lia.
  - intros c s i Hi Ha Hs Hid Hd. apply String.eqb_neq in Ha.
    unfold events_of, result_of, run, action, gen_chain_action, checkForName, genChain;
      cbv [bind ret throw call_err call_val get_state emit lift_err]; simpl.
    rewrite Hi; simpl. rewrite Ha; simpl.
    unfold Load, GenDNAHashes, Activate, with_inst. rewrite Hs. simpl.
    destruct (decide (dna i = [])) as [E|E]; [contradiction|]. simpl. rewrite Hid. simpl.
    split; reflexivity.
Qed.

(** ** Detecting an uninitialized chain *)

(** C4 (as the code has it): once the chain is loaded, [dump] and
    [serve] classify the error of [h.ID()] by its text alone: an error of
    any kind whose text is "holochain: Meta key 'id' uninitialized" is
    reported as a not-yet-initialized chain, and every other error,
    including one of the uninitialized kind with another text, is
    returned unchanged. *)
Theorem uninitialized_detected_by_text {S} `{HoloLib S} c (s : S) e :
  initialized c = true -> arg c 0 <> "" -> svc_Load (arg c 0) s = None -> h_ID s = inl e ->
  result_of CmdDump c s =
    Some (if String.eqb (Error e) uninitialized_text
          then errors_New "No data to dump, chain not yet initialized." else e) /\
  result_of CmdServe c s =
    Some (if String.eqb (Error e) uninitialized_text
          then errors_New ("Can't serve an un-started chain. Run 'gen chain " ++ h_Name s
                           ++ "' to generate genesis entries and start the chain.")%string
          else e).
Proof.
  intros Hi Ha Hl He. split;
    unfold result_of, run, action, dump_action, serve_action, getHolochain, checkForName;
    cbv [bind ret throw call_err call_val get_state emit lift_err]; simpl;
    rewrite Hi; simpl;
    (destruct (String.eqb (arg c 0) "") eqn:E; [apply String.eqb_eq in E; contradiction|]);
    rewrite Hl; simpl; rewrite He; simpl;
    by destruct (String.eqb (Error e) uninitialized_text).
Qed.

Lemma uninitialized_detected_by_text_witness :
  initialized (alice_ctx false) = true /\ arg (alice_ctx false) 0 <> "" /\
  svc_Load (arg (alice_ctx false) 0) (SpecLib.mkService [] (Some (SpecLib.fresh "alice" []))) = None /\
  h_ID (SpecLib.mkService [] (Some (SpecLib.fresh "alice" []))) = inl SpecLib.uninitialized_error /\
  result_of CmdDump (alice_ctx false) (SpecLib.mkService [] (Some (SpecLib.fresh "alice" []))) =
    Some (errors_New "No data to dump, chain not yet initialized.").
Proof.
  assert (H1 : initialized (alice_ctx false) = true) by reflexivity.
  assert (H2 : arg (alice_ctx false) 0 <> "") by discriminate.
  assert (H3 : svc_Load (arg (alice_ctx false) 0)
                 (SpecLib.mkService [] (Some (SpecLib.fresh "alice" []))) = None) by reflexivity.
  assert (H4 : h_ID (SpecLib.mkService [] (Some (SpecLib.fresh "alice" [])))
                 = inl SpecLib.uninitialized_error) by reflexivity.
  split; [exact H1|]. split; [exact H2|]. split; [exact H3|]. split; [exact H4|].
  exact (proj1 (uninitialized_detected_by_text _ _ _ H1 H2 H3 H4)).
Defined.

(** C4 fails as stated: [dump] reports an error of the corrupt-chain
    kind as "not yet initialized" when its text is the uninitialized
    text, and does not recognise an error of the uninitialized kind
    whose text differs: the kind is never consulted. *)
Lemma uninitialized_not_by_kind :
  @result_of _ (id_error_lib KCorruptChain uninitialized_text) CmdDump (alice_ctx false) alice_genesis
    = Some (errors_New "No data to dump, chain not yet initialized.") /\
  @result_of _ (id_error_lib KUninitialized "holochain: id not set") CmdDump (alice_ctx false)
    alice_genesis = Some (mkErr KUninitialized "holochain: id not set").
Proof. split; reflexivity. Qed.

(** ** Walking and dumping *)

Lemma walk_from_stored ch v f cur tr r :
  walk_from ch v f cur = (tr, r) -> Forall (stored ch) tr.
Proof.
  revert cur tr r. induction f as [|f IH]; intros [k|] tr r Hw; simpl in Hw;
    try (inversion Hw; subst; by constructor).
  destruct (headers ch !! k) as [h|] eqn:Hh; [|inversion Hw; subst; by constructor].
  destruct (entries ch !! EntryLink h) as [e|] eqn:He; [|inversion Hw; subst; by constructor].
  destruct (v k h e).
  - inversion Hw; subst. by repeat constructor.
  - destruct (walk_from ch v f (HeaderLink h)) as [tr' r'] eqn:E. inversion Hw; subst.
    constructor; [done|]. exact (IH _ _ _ E).
Qed.

Lemma collect_stored ch f cur tr r :
  collect ch f cur = (tr, r) -> Forall (stored ch) tr.
Proof.
  revert cur tr r. induction f as [|f IH]; intros [k|] tr r Hw; simpl in Hw;
    try (inversion Hw; subst; by constructor).
  destruct (headers ch !! k) as [h|] eqn:Hh; [|inversion Hw; subst; by constructor].
  destruct (entries ch !! EntryLink h) as [e|] eqn:He; [|inversion Hw; subst; by constructor].
  destruct (collect ch f (HeaderLink h)) as [tr' r'] eqn:E. inversion Hw; subst.
  constructor; [done|]. exact (IH _ _ _ E).
Qed.

Lemma visit_all_Forall (P : Hash * Header * EntryVal -> Prop) v l tr r :
  visit_all v l = (tr, r) -> Forall P l -> Forall P tr.
Proof.
  revert tr r. induction l as [|[[k h] e] l IH]; intros tr r Hv Hl; simpl in Hv.
  - by inversion Hv.
  - inversion Hl as [|? ? Hp Hl']; subst. destruct (v k h e).
    + inversion Hv; subst. by constructor.
    + destruct (visit_all v l) as [tr' r'] eqn:E. inversion Hv; subst.
      constructor; [done|]. exact (IH _ _ eq_refl Hl').
Qed.

Lemma walk_stored ch d v tr r : walk ch d v = (tr, r) -> Forall (stored ch) tr.
Proof.
  unfold walk. destruct d.
  - apply walk_from_stored.
  - destruct (collect ch (size (headers ch)) (head ch)) as [path [err|]] eqn:E; intros Hw.
    + inversion Hw; subst. constructor.
    + eapply visit_all_Forall; [exact Hw|]. apply Forall_rev. exact (collect_stored _ _ _ _ _ E).
Qed.

Lemma walk_from_silent ch v f cur :
  (forall k h e, v k h e = None) -> walk_from ch v f cur = walk_from ch no_abort f cur.
Proof.
  intros Hv. revert cur. induction f as [|f IH]; intros [k|]; simpl; try done.
  destruct (headers ch !! k) as [h|]; [|done].
  destruct (entries ch !! EntryLink h) as [e|]; [|done].
  by rewrite Hv, IH.
Qed.

Lemma visit_all_silent v l :
  (forall k h e, v k h e = None) -> visit_all v l = visit_all no_abort l.
Proof.
  intros Hv. induction l as [|[[k h] e] l IH]; simpl; [done|]. by rewrite Hv, IH.
Qed.

Lemma walk_silent ch d v :
  (forall k h e, v k h e = None) -> walk ch d v = walk ch d no_abort.
Proof.
  intros Hv. unfold walk. destruct d.
  - by apply walk_from_silent.
  - destruct (collect ch (size (headers ch)) (head ch)) as [path [err|]]; [done|].
    by apply visit_all_silent.
Qed.

Lemma dump_links_fold (vs : Visited) (m : gmap Hash Header) k h :
  (forall h' e', In (k, h', e') vs -> h' = h) ->
  (m !! k = Some h \/ exists e, In (k, h, e) vs) ->
  foldl (fun m '(k, h, _) => <[k := h]> m) m vs !! k = Some h.
Proof.
  revert m. induction vs as [|[[k' h'] e'] vs IH]; intros m Hc Hin; simpl.
  - destruct Hin as [Hm|[e []]]. done.
  - apply IH.
    + intros h'' e'' Hi. apply (Hc h'' e''). by right.
    + destruct (decide (k' = k)) as [->|Hne].
      * left. rewrite lookup_insert_eq. f_equal. apply (Hc h' e'). by left.
      * destruct Hin as [Hm|[e [He|He]]].
        -- left. by rewrite lookup_insert_ne.
        -- congruence.
        -- right. by exists e.
Qed.

Lemma dump_links_stored ch (vs : Visited) :
  Forall (stored ch) vs ->
  Forall (fun v : Hash * Header * EntryVal => let '(k, h, _) := v in dump_links vs !! k = Some h) vs.
Proof.
  intros Hs. apply List.Forall_forall. intros [[k h] e] Hin. unfold dump_links.
  apply dump_links_fold; [|right; by exists e].
  intros h' e' Hin'.
  apply (proj1 (List.Forall_forall _ _) Hs) in Hin as [Hk _].
  apply (proj1 (List.Forall_forall _ _) Hs) in Hin' as [Hk' _]. congruence.
Qed.

Lemma dump_print_expected {S} `{HoloLib S} links (vs : Visited) (s : S) tr :
  Forall (fun v : Hash * Header * EntryVal => let '(k, h, _) := v in links !! k = Some h) vs ->
  exists r, dump_print links (map (fun '(k, _, e) => (k, e)) vs) (s, tr) =
            ((s, tr ++ expected_dump vs), r).
Proof.
  revert tr. induction vs as [|[[k h] e] vs IH]; intros tr Hl; simpl.
  - exists (inr tt). by rewrite app_nil_r.
  - inversion Hl as [|? ? Hk Hl']; subst. rewrite Hk. simpl.
    destruct (render_entry (Type_ h) e) as [r|]; cbv [bind emit throw]; simpl.
    + destruct (IH (tr ++ [Printed (mkDump (Type_ h) k (Time h) (HeaderLink h) (TypeLink h)
                                           (EntryLink h) (Some r))]) Hl') as [r' Hr].
      exists r'. rewrite Hr. by rewrite <- app_assoc.
    + eexists. by rewrite <- app_assoc.
Qed.

Lemma walk_from_retype g ch f cur :
  walk_from (retype g ch) no_abort f cur =
  let '(tr, r) := walk_from ch no_abort f cur in (map (retype_visit g) tr, r).
Proof.
  revert cur. induction f as [|f IH]; intros [k|]; simpl; try done.
  rewrite lookup_fmap. destruct (headers ch !! k) as [h|]; simpl; [|done].
  destruct (entries ch !! EntryLink h) as [e|]; [|done].
  rewrite IH. by destruct (walk_from ch no_abort f (HeaderLink h)).
Qed.

Lemma collect_retype g ch f cur :
  collect (retype g ch) f cur =
  let '(tr, r) := collect ch f cur in (map (retype_visit g) tr, r).
Proof.
  revert cur. induction f as [|f IH]; intros [k|]; simpl; try done.
  rewrite lookup_fmap. destruct (headers ch !! k) as [h|]; simpl; [|done].
  destruct (entries ch !! EntryLink h) as [e|]; [|done].
  rewrite IH. by destruct (collect ch f (HeaderLink h)).
Qed.

Lemma walk_retype g ch d :
  walk (retype g ch) d no_abort =
  let '(tr, r) := walk ch d no_abort in (map (retype_visit g) tr, r).
Proof.
  unfold walk. assert (Hs : size (headers (retype g ch)) = size (headers ch))
    by apply map_size_fmap.
  rewrite Hs. destruct d.
  - apply walk_from_retype.
  - rewrite collect_retype. simpl.
    destruct (collect ch (size (headers ch)) (head ch)) as [path [err|]]; [done|].
    rewrite !visit_all_no_abort. by rewrite map_rev.
Qed.

(** C8: the walker hands each visit the key, the header stored under
    it and the entry stored under the header's [EntryLink]; it never
    reads a header's type (renaming every type changes nothing but the
    types in the visits) and a visit callback that never aborts does not
    change the walk. Types are read only when [dump] renders an entry: a
    DNA entry as its raw bytes, a key entry as its fields, any other
    entry generically; and [dump] prints, in walk order, one record per
    visit built from that visit's own header. *)
Theorem walker_type_agnostic_render_at_dump :
  (forall ch d v tr r, walk ch d v = (tr, r) -> Forall (stored ch) tr) /\
  (forall g ch d, walk (retype g ch) d no_abort =
     let '(tr, r) := walk ch d no_abort in (map (retype_visit g) tr, r)) /\
  (forall ch d v, (forall k h e, v k h e = None) -> walk ch d v = walk ch d no_abort) /\
  (forall b, render_entry DNAEntryType (VBytes b) = Some (RRawBytes (string_of_list_byte b))) /\
  (forall k, render_entry KeyEntryType (VKey k) = Some (RFields k)) /\
  (forall ty e, ty <> DNAEntryType -> ty <> KeyEntryType -> render_entry ty e = Some (RGeneric e)) /\
  (forall c s i x, initialized c = true -> arg c 0 <> "" -> inst s = Some i -> id i = Some x ->
     events_of CmdDump c s =
       [Called CLoad true; Called CID true;
        Called CWalk (is_ok (snd (walk (chain i) NewestFirst no_abort)))] ++
       expected_dump (fst (walk (chain i) NewestFirst no_abort))).
Proof.
  split; [exact walk_stored|]. split; [exact walk_retype|]. split; [exact walk_silent|].
  split; [done|]. split; [done|].
  split.
  { intros ty e H1 H2. unfold render_entry.
    destruct (String.eqb ty DNAEntryType) eqn:E1; [apply String.eqb_eq in E1; contradiction|].
    destruct (String.eqb ty KeyEntryType) eqn:E2; [apply String.eqb_eq in E2; contradiction|].
    done. }
  intros c s i x Hi Ha Hs Hx.
  destruct (walk (chain i) NewestFirst no_abort) as [vs werr] eqn:W.
  assert (HW : Walk s true = (vs, werr)) by (unfold Walk; by rewrite Hs).
  unfold events_of, run, action, dump_action, getHolochain, checkForName;
    cbv [bind ret throw call_err call_val get_state emit lift_err]; simpl.
  rewrite Hi; simpl.
  destruct (String.eqb (arg c 0) "") eqn:E; [apply String.eqb_eq in E; contradiction|].
  unfold Load, ID. rewrite Hs, Hx. simpl. rewrite HW. simpl.
  edestruct (dump_print_expected (dump_links vs) vs s) as [r Hr];
    [exact (dump_links_stored _ _ (walk_stored _ _ _ _ _ W))|].
  rewrite Hr. by destruct r.
Qed.

(** ** Runs on a concrete chain *)

Lemma network_tasks_after_activate_witness :
  events_of CmdServe (alice_ctx false) alice_genesis =
    [Called CLoad true; Called CID true; Called CActivate true] ++
    Spawned THandlePutReqs :: [Spawned TGossip; Served "3141"] /\
  In (Called CActivate true) [Called CLoad true; Called CID true; Called CActivate true].
Proof.
  assert (E : events_of CmdServe (alice_ctx false) alice_genesis =
    [Called CLoad true; Called CID true; Called CActivate true] ++
    Spawned THandlePutReqs :: [Spawned TGossip; Served "3141"]) by reflexivity.
  split; [exact E|].
  exact (proj1 (network_tasks_after_activate CmdServe (alice_ctx false) alice_genesis) _ _ _ E).
Defined.

Lemma genchain_only_after_dna_hashed_witness :
  events_of CmdGenChain (alice_ctx false) alice_genesis =
    [Called CLoad true; Called CGenDNAHashes true; Called CActivate true] ++
    Called CGenChain false :: [] /\
  In (Called CGenDNAHashes true) [Called CLoad true; Called CGenDNAHashes true; Called CActivate true].
Proof.
  assert (E : events_of CmdGenChain (alice_ctx false) alice_genesis =
    [Called CLoad true; Called CGenDNAHashes true; Called CActivate true] ++
    Called CGenChain false :: []) by reflexivity.
  split; [exact E|].
  exact (genchain_only_after_dna_hashed CmdGenChain (alice_ctx false) alice_genesis _ _ _ E).
Defined.

Lemma reset_only_by_reset_or_forced_test_witness :
  In (Called CReset true) (events_of CmdTest (alice_ctx true) alice_genesis) /\
  (CmdTest = CmdReset \/ (CmdTest = CmdTest /\ force (alice_ctx true) = true)) /\
  snd (fst (run CmdReset (alice_ctx false) alice_genesis [])) = [Called CLoad true; Called CReset true] /\
  (exists rest, events_of CmdTest (alice_ctx true) alice_genesis =
     [Called CLoad true; Called CReset true] ++ rest).
Proof.
  destruct reset_only_by_reset_or_forced_test as [H1 [H2 H3]].
  assert (H : In (Called CReset true) (events_of CmdTest (alice_ctx true) alice_genesis))
    by (vm_compute; tauto).
  split; [exact H|]. split; [exact (H1 _ _ _ _ H)|]. split.
  - rewrite (H2 (alice_ctx false) alice_genesis eq_refl ltac:(discriminate) eq_refl).
    reflexivity.
  - exact (H3 (alice_ctx true) alice_genesis eq_refl eq_refl ltac:(discriminate) eq_refl).
Defined.

(** C7 fails as stated: [hc reset alice], with no [--force], resets the chain. *)
Lemma reset_without_confirmation :
  force (alice_ctx false) = false /\
  events_of CmdReset (alice_ctx false) alice_genesis = [Called CLoad true; Called CReset true] /\
  option_map SpecLib.id (SpecLib.inst (fst (fst (run CmdReset (alice_ctx false) alice_genesis []))))
    = Some None.
Proof. split; [|split]; reflexivity. Qed.

Lemma test_returns_error_after_activate_witness :
  let '(s', tr, r) := run CmdTest (alice_ctx false) alice_genesis [] in
  In (Called CActivate true) tr /\ r = Some (errors_New "").
Proof.
  pose proof (test_returns_error_after_activate (alice_ctx false) alice_genesis) as H.
  vm_compute in H |- *. split; [tauto|]. apply (proj2 (H ltac:(tauto))). reflexivity.
Defined.

Lemma serve_port_default_witness :
  In (Served "8080") (events_of CmdServe (mkCtx ["alice"; "8080"] false true "/r") alice_genesis) /\
  (forall a, args (mkCtx ["alice"; "8080"] false true "/r") !! 1%nat = Some a -> "8080" = a).
Proof.
  assert (H : In (Served "8080")
                (events_of CmdServe (mkCtx ["alice"; "8080"] false true "/r") alice_genesis))
    by (vm_compute; tauto).
  split; [exact H|]. exact (proj2 (serve_port_default _ _ _ H)).
Defined.

Lemma walker_type_agnostic_render_at_dump_witness :
  events_of CmdDump (alice_ctx false) alice_genesis =
    [Called CLoad true; Called CID true; Called CWalk true;
     Printed (mkDump DNAEntryType 133 0 None None 66 (Some (RRawBytes "A")))].
Proof.
  destruct walker_type_agnostic_render_at_dump as [_ [_ [_ [_ [_ [_ Hd]]]]]].
  rewrite (Hd (alice_ctx false) alice_genesis
             (default (SpecLib.fresh "" []) (SpecLib.inst alice_genesis)) 66
             eq_refl ltac:(discriminate) eq_refl eq_refl).
  reflexivity.
Defined.

(** ** Resolving the holochain root *)

(** [app.Before] takes the root from [--path]; failing that from
    [HOLOPATH]; failing that it is the user's home directory followed by
    [holo.DefaultDirectoryName], and a failed user lookup is returned
    (with the service left uninitialized). A source that is not needed
    is never consulted. *)
Theorem before_root_precedence dbg root env :
  (root <> "" ->
     b_root (before dbg root env) = root /\
     forall hp uc, before dbg root (mkEnv hp uc (DefaultDirectoryName env) (IsInitialized env)
                                        (LoadService env)) = before dbg root env) /\
  (root = "" -> HOLOPATH env <> "" ->
     b_root (before dbg root env) = HOLOPATH env /\
     forall uc, before dbg root (mkEnv (HOLOPATH env) uc (DefaultDirectoryName env)
                                      (IsInitialized env) (LoadService env)) = before dbg root env) /\
  (root = "" -> HOLOPATH env = "" ->
     match user_Current env with
     | inl e => before dbg root env = mkBefore (if dbg then DEBUG else INFO) "" false (Some e)
     | inr home => b_root (before dbg root env) = (home ++ "/" ++ DefaultDirectoryName env)%string
     end).
Proof.
  destruct env as [hp uc dd isi ls]; unfold before; simpl.
  split; [|split].
  - intros Hr. apply String.eqb_neq in Hr. rewrite Hr.
    split; [by destruct (isi root)|]. intros hp' uc'. reflexivity.
  - intros -> Hh. apply String.eqb_neq in Hh. simpl. rewrite Hh.
    split; [by destruct (isi hp)|]. intros uc'. reflexivity.
  - intros -> ->. simpl. destruct uc as [e|home]; [done|].
    by destruct (isi (home ++ "/" ++ dd)%string).
Qed.

(** [app.Before] loads the service only from a root where [hc init] was
    run, and returns the load error then; on any other root it reports
    the service uninitialized and returns nil, unless the user lookup
    for the default root failed. *)
Theorem before_loads_only_initialized dbg root env :
  let res := before dbg root env in
  (b_initialized res = true ->
     IsInitialized env (b_root res) = true /\ b_err res = LoadService env (b_root res)) /\
  (b_initialized res = false ->
     b_err res = None \/
     (root = "" /\ HOLOPATH env = "" /\ exists e, user_Current env = inl e /\ b_err res = Some e)).
Proof.
  destruct env as [hp uc dd isi ls]; unfold before; simpl.
  destruct (String.eqb root "") eqn:Er; [apply String.eqb_eq in Er; subst root|].
  - destruct (String.eqb hp "") eqn:Eh; [apply String.eqb_eq in Eh; subst hp|].
    + destruct uc as [e|home].
      * simpl. split; [discriminate|]. intros _. right. eauto.
      * destruct (isi (home ++ "/" ++ dd)%string) eqn:Ei; simpl; split; try done; auto.
    + destruct (isi hp) eqn:Ei; simpl; split; try done; auto.
  - destruct (isi root) eqn:Ei; simpl; split; try done; auto.
Qed.

(** ** The further commands on a concrete chain *)

Lemma clone_join_check_args_witness :
  run CmdClone (mkCtx ["app"] false false "/r") alice_genesis [] =
    (alice_genesis, [], Some (errors_New "clone: missing required holochain-name argument")).
Proof.
  exact (proj1 (proj2 (clone_join_check_args CmdClone (mkCtx ["app"] false false "/r") alice_genesis
                         (or_introl eq_refl))) ltac:(discriminate) eq_refl).
Defined.

Lemma clone_removes_only_with_force_witness :
  events_of CmdClone (mkCtx ["app"; "alice"] true true "/r") (mkService [Byte.x41] None) =
    [Called CRemoveAll true; Called CClone true].
Proof.
  unfold events_of.
  rewrite (clone_removes_only_with_force (mkCtx ["app"; "alice"] true true "/r")
             (mkService [Byte.x41] None) ltac:(discriminate) ltac:(discriminate)).
  reflexivity.
Defined.

Lemma join_clones_then_generates_witness :
  ~ In (Called CRemoveAll true) (events_of CmdJoin (mkCtx ["app"; "bob"] false true "/r") (mkService [Byte.x41] None)) /\
  snd (fst (run CmdJoin (mkCtx ["app"; "bob"] false true "/r") (mkService [Byte.x41] None) [])) =
    [Called CClone true; Called CLoad true; Called CGenDNAHashes true; Called CActivate false].
Proof.
  destruct (join_clones_then_generates (mkCtx ["app"; "bob"] false true "/r") (mkService [Byte.x41] None)
              ltac:(discriminate) ltac:(discriminate)) as [He Hr].
  split; [apply Hr|]. rewrite He. reflexivity.
Defined.

Lemma dump_ignores_walk_error_witness :
  result_of CmdDump (alice_ctx false) alice_genesis = None /\
  events_of CmdDump (alice_ctx false) bad_dna_service =
    [Called CLoad true; Called CID true; Called CWalk true;
     Printed (mkDump DNAEntryType 11 0 None None 5 None); Panicked] /\
  result_of CmdDump (alice_ctx false) bad_dna_service = Some go_panic.
Proof.
  split; [|split; [reflexivity|]].
  - apply (proj1 (dump_ignores_walk_error (alice_ctx false) alice_genesis 66
                    eq_refl ltac:(discriminate) eq_refl eq_refl)).
    vm_compute. intros [H|[H|[H|[H|H]]]]; discriminate || exact H.
  - apply (proj1 (proj2 (dump_ignores_walk_error (alice_ctx false) bad_dna_service 5
                           eq_refl ltac:(discriminate) eq_refl eq_refl))).
    vm_compute. tauto.
Defined.

Lemma dev_rejects_bad_format_witness :
  xrun (dev_action (mkCtx ["alice"; "xml"] true true "/r")) alice_genesis =
    (alice_genesis, [], Some (errors_New "gen dev: format must be one of yaml,toml,json")).
Proof.
  exact (dev_rejects_bad_format (mkCtx ["alice"; "xml"] true true "/r") alice_genesis
           eq_refl ltac:(discriminate) eq_refl eq_refl).
Defined.

Lemma dev_generates_with_format_witness :
  xrun (dev_action (mkCtx ["alice"; "xml"; "extra"] false true "/r")) alice_genesis =
    let '(s2, r) := svc_GenDev "/r/alice" "toml" alice_genesis in (s2, [XCalled XGenDev (is_ok r)], r).
Proof.
  rewrite (dev_generates_with_format (mkCtx ["alice"; "xml"; "extra"] false true "/r") alice_genesis
             eq_refl ltac:(discriminate) ltac:(discriminate)).
  reflexivity.
Defined.

Lemma listChains_each_chain_once_witness :
  exists lines, xrun (listChains map_to_list) alice_genesis =
    (alice_genesis, XCalled XConfiguredChains true :: map XLine lines, None) /\
    lines = ["installed holochains: "; "     alice 66"].
Proof.
  pose proof (listChains_each_chain_once map_to_list alice_genesis (fun m => reflexivity _)) as H.
  vm_compute in H. destruct H as [lines [H1 _]]. exists lines. split; [vm_compute; exact H1|].
  destruct lines as [|a [|b [|c l]]]; vm_compute in H1; inversion H1; reflexivity.
Defined.

Lemma call_short_os_args_panics_witness :
  fst (xrun (call_action ["hc"; "call"; "alice"] (alice_ctx false)) alice_genesis) =
    (alice_genesis, [XBase (Called CLoad true); XIndexPanic]).
Proof.
  exact (call_short_os_args_panics ["hc"; "call"; "alice"] (alice_ctx false) alice_genesis
           ltac:(simpl; lia) eq_refl ltac:(discriminate) eq_refl).
Defined.

(** With a global flag before the command, [call] takes the chain name
    as the zome and the zome as the function. *)
Lemma call_passes_os_args_witness :
  snd (fst (xrun (call_action ["hc"; "--verbose"; "call"; "alice"; "myzome"; "fn"; "a"]
                   (mkCtx ["alice"; "myzome"; "fn"; "a"] false true "/r")) alice_genesis)) =
    [XBase (Called CLoad true); XLine "calling myzome on zome alice with params [fn a]";
     XCalled XCallFn true; XLine "alice.myzome(fn a)"].
Proof.
  rewrite (call_passes_os_args ["hc"; "--verbose"; "call"; "alice"; "myzome"; "fn"; "a"]
             (mkCtx ["alice"; "myzome"; "fn"; "a"] false true "/r") alice_genesis "alice" "myzome"
             eq_refl eq_refl eq_refl ltac:(discriminate) eq_refl).
  reflexivity.
Defined.

Lemma before_root_precedence_witness :
  b_root (before false "" (mkEnv "" (inr "/home/u") ".holochain" (fun _ => false) (fun _ => None)))
    = "/home/u/.holochain".
Proof.
  exact (proj2 (proj2 (before_root_precedence false ""
                         (mkEnv "" (inr "/home/u") ".holochain" (fun _ => false) (fun _ => None))))
           eq_refl eq_refl).
Defined.

(** With an [Activate] that does not check the [Id], [gen chain] on a
    fresh chain activates it before generating genesis; with the
    specified one it stops at [Activate]. *)
Lemma genchain_activates_before_genesis_witness :
  @events_of _ lax_lib CmdGenChain (alice_ctx false) alice_fresh =
    [Called CLoad true; Called CGenDNAHashes true; Called CActivate true] ++
    Called CGenChain true :: [Spawned THandlePutReqs; Called CID true] /\
  (In (Called CActivate true) [Called CLoad true; Called CGenDNAHashes true; Called CActivate true] /\
   ~ In (Called CGenChain true) [Called CLoad true; Called CGenDNAHashes true; Called CActivate true]) /\
  (events_of CmdGenChain (alice_ctx false) alice_fresh =
     [Called CLoad true; Called CGenDNAHashes true; Called CActivate false] /\
   result_of CmdGenChain (alice_ctx false) alice_fresh = Some not_seeded_error).
Proof.
  destruct genchain_activates_before_genesis as [_ [H2 H3]].
  assert (E : @events_of _ lax_lib CmdGenChain (alice_ctx false) alice_fresh =
    [Called CLoad true; Called CGenDNAHashes true; Called CActivate true] ++
    Called CGenChain true :: [Spawned THandlePutReqs; Called CID true]) by reflexivity.
  split; [exact E|]. split; [exact (H2 _ lax_lib _ _ _ _ _ _ (or_intror eq_refl) E)|].
  exact (H3 (alice_ctx false) alice_fresh (fresh "alice" [Byte.x41]) eq_refl
            ltac:(discriminate) eq_refl eq_refl ltac:(discriminate)).
Defined.
